(** * goraphql_mock_server: a shallow embedding of the matching and dispatch engine

    The development follows the Go sources: the variable matchers and the
    response generators of [MockedRequest], the response envelope with its
    JSON encoding, the registry filled by [RegisterQuery] and the [handler]
    that dispatches one request.

    - Go strings are byte strings, so they are modelled by [string] (a list
      of 8-bit characters).  A Go [map] is a [gmap]; since
      [reflect.DeepEqual] tells a nil map from an empty one, a map value is
      an [option (gmap _ _)] with [None] for nil, and likewise for slices.
    - The order of a [range] over a map is not specified by Go: the loops
      over a map take the order as an argument, and the results hold for
      every order.
    - The handler writes to its [http.ResponseWriter] and may panic: it is
      a function from the writer (the list of what was written so far) to
      an outcome and the writer afterwards.
    - JSON documents are trees; the text of requests and responses is left
      to [encoding/json].  The handler is given the result of decoding the
      body, a request or the error of the decoder.  [StringResponse], which
      parses a JSON text, is not part of the model. *)

From Stdlib Require Import ZArith NArith Ascii String List Bool Lia.
From stdpp Require Import gmap strings list fin_maps sorting pretty.

Set Warnings "-register-all".

(* ===================================================================== *)
(** * Package [strings]: the three functions the handler calls           *)
(* ===================================================================== *)

(** [strings.HasPrefix(s, prefix)]:
    [len(s) >= len(prefix) && s[:len(prefix)] == prefix]. *)
Fixpoint HasPrefix (s prefix : string) : bool :=
  match prefix, s with
  | EmptyString, _ => true
  | String _ _, EmptyString => false
  | String p prefix', String c s' => Ascii.eqb c p && HasPrefix s' prefix'
  end.

(** [strings.Contains(s, substr)]: [substr] occurs at some byte offset of
    [s].  The comparison is on bytes: no case folding, no wildcard. *)
Fixpoint Contains (s substr : string) : bool :=
  HasPrefix s substr ||
  match s with
  | EmptyString => false
  | String _ s' => Contains s' substr
  end.

(** The value of a byte. *)
Definition byte_val (c : ascii) : N := N_of_ascii c.

(** [asciiSpace] of package strings: tab, line feed, vertical tab, form
    feed, carriage return and space. *)
Definition asciiSpace (c : ascii) : bool :=
  let n := byte_val c in
  ((9 <=? n) && (n <=? 13) || (n =? 32))%N.

(** [unicode.IsSpace] on the runes above U+007F, by their UTF-8 encodings.
    Two bytes: U+0085 (NEL) and U+00A0 (NBSP). *)
Definition isSpace2 (b1 b2 : ascii) : bool :=
  let '(n1, n2) := (byte_val b1, byte_val b2) in
  ((n1 =? 194) && ((n2 =? 133) || (n2 =? 160)))%N.

(** Three bytes: U+1680, U+2000 to U+200A, U+2028, U+2029, U+202F, U+205F
    and U+3000. *)
Definition isSpace3 (b1 b2 b3 : ascii) : bool :=
  let '(n1, n2, n3) := (byte_val b1, byte_val b2, byte_val b3) in
  ((n1 =? 225) && (n2 =? 154) && (n3 =? 128)
   || (n1 =? 226) && (n2 =? 128)
      && ((128 <=? n3) && (n3 <=? 138) || (n3 =? 168) || (n3 =? 169) || (n3 =? 175))
   || (n1 =? 226) && (n2 =? 129) && (n3 =? 159)
   || (n1 =? 227) && (n2 =? 128) && (n3 =? 128))%N.

(** Leading white space removed, one rune at a time.  A byte sequence that
    is not the encoding of a white-space rune (invalid UTF-8 included, which
    Go decodes as U+FFFD) stops the trimming. *)
Fixpoint TrimLeftSpace (s : string) : string :=
  match s with
  | EmptyString => EmptyString
  | String b1 s1 =>
      if asciiSpace b1 then TrimLeftSpace s1
      else match s1 with
           | EmptyString => s
           | String b2 s2 =>
               if isSpace2 b1 b2 then TrimLeftSpace s2
               else match s2 with
                    | EmptyString => s
                    | String b3 s3 =>
                        if isSpace3 b1 b2 b3 then TrimLeftSpace s3 else s
                    end
           end
  end.

(** The same from the end of the string, on the reversed bytes: the last
    rune of [s] is white space exactly when [s] ends with its encoding. *)
Fixpoint TrimLeftSpaceRev (r : list ascii) : list ascii :=
  match r with
  | [] => []
  | b1 :: r1 =>
      if asciiSpace b1 then TrimLeftSpaceRev r1
      else match r1 with
           | [] => r
           | b2 :: r2 =>
               if isSpace2 b2 b1 then TrimLeftSpaceRev r2
               else match r2 with
                    | [] => r
                    | b3 :: r3 =>
                        if isSpace3 b3 b2 b1 then TrimLeftSpaceRev r3 else r
                    end
           end
  end.

Definition TrimRightSpace (s : string) : string :=
  string_of_list_ascii
    (rev (TrimLeftSpaceRev (rev (list_ascii_of_string s)))).

(** [strings.TrimSpace(s)]: [s] without its leading and trailing white
    space, as defined by Unicode. *)
Definition TrimSpace (s : string) : string :=
  TrimRightSpace (TrimLeftSpace s).

(* ===================================================================== *)
(** * Go values held by an [any]                                         *)
(* ===================================================================== *)

(** A [float64] is its IEEE 754 bit pattern, [0 <= bits < 2^64]. *)
Definition float64 : Type := Z.

Definition f64_exponent (f : float64) : Z := Z.land (Z.shiftr f 52) 2047.
Definition f64_mantissa (f : float64) : Z := Z.land f (Z.ones 52).

Definition f64_isNaN (f : float64) : bool :=
  (f64_exponent f =? 2047)%Z && negb (f64_mantissa f =? 0)%Z.
Definition f64_isInf (f : float64) : bool :=
  (f64_exponent f =? 2047)%Z && (f64_mantissa f =? 0)%Z.
Definition f64_isZero (f : float64) : bool :=
  (Z.land f (Z.ones 63) =? 0)%Z.

(** Go's [==] on float64: NaN equals nothing, the two zeros are equal. *)
Definition f64_eq (a b : float64) : bool :=
  if f64_isNaN a || f64_isNaN b then false
  else if f64_isZero a && f64_isZero b then true
  else (a =? b)%Z.

(** The dynamic values an [any] holds in this program: what encoding/json
    decodes a request into (nil, bool, float64, string, []any,
    map[string]any), the Go [int]s test code writes in variable maps, and
    the struct [EncodedVariable] of the tests, the one type that implements
    [VariableDecoder]. *)
Inductive any : Type :=
  | ANil
  | ABool (b : bool)
  | AInt (n : Z)
  | AFloat (f : float64)
  | AString (s : string)
  | ASlice (l : option (list any))
  | AMap (m : option (gmap string any))
  | AEncodedVariable (Foo : string) (Num : Z).

(** [map[string]any]; [None] is the nil map. *)
Abbreviation gomap := (option (gmap string any)).

(** The built-in [len] of a map, and the entries a [range] visits. *)
Definition map_len {V} (m : option (gmap string V)) : nat :=
  size (default ∅ m).
Definition map_entries {V} (m : option (gmap string V)) : gmap string V :=
  default ∅ m.

(** Number of constructors of a value, the measure for induction. *)
Fixpoint any_size (v : any) : nat :=
  match v with
  | ASlice (Some l) => S (foldr (λ x acc, any_size x + acc) 0 l)
  | AMap (Some m) => S (map_fold (λ _ x acc, any_size x + acc) 0 m)
  | _ => 1
  end.

(** The Go type of a dynamic value ([reflect.Type]). *)
Inductive gotype : Type :=
  | TNil | TBool | TInt | TFloat64 | TString | TSliceAny | TMapStringAny
  | TEncodedVariable.

Definition TypeOf (v : any) : gotype :=
  match v with
  | ANil => TNil
  | ABool _ => TBool
  | AInt _ => TInt
  | AFloat _ => TFloat64
  | AString _ => TString
  | ASlice _ => TSliceAny
  | AMap _ => TMapStringAny
  | AEncodedVariable _ _ => TEncodedVariable
  end.

(** The loop [for i := 0; i < v1.Len(); i++] of [DeepEqual] over two
    slices of the same length: every pair of elements is equal. *)
Definition all2 {A} (eq : A → A → bool) : list A → list A → bool :=
  fix go (l1 l2 : list A) : bool :=
    match l1, l2 with
    | a :: l1', b :: l2' => eq a b && go l1' l2'
    | _, _ => true
    end.

(** [reflect.DeepEqual].  Two nil interfaces are equal, values of different
    types never are; then by kind: scalars with [==], slices element by
    element, maps key by key, structs field by field; a nil slice or map
    differs from an empty one.  (The reference and the request never share
    storage, so the pointer short cut of slices and maps does not arise.) *)
Fixpoint DeepEqual (x y : any) : bool :=
  match x, y with
  | ANil, ANil => true
  | ABool a, ABool b => Bool.eqb a b
  | AInt a, AInt b => (a =? b)%Z
  | AFloat a, AFloat b => f64_eq a b
  | AString a, AString b => String.eqb a b
  | ASlice None, ASlice None => true
  | ASlice (Some l1), ASlice (Some l2) =>
      (length l1 =? length l2)%nat && all2 DeepEqual l1 l2
  | AMap None, AMap None => true
  | AMap (Some m1), AMap (Some m2) =>
      (size m1 =? size m2)%nat &&
      map_fold (λ k v1 acc,
                  acc && match m2 !! k with
                         | Some v2 => DeepEqual v1 v2
                         | None => false
                         end) true m1
  | AEncodedVariable f1 n1, AEncodedVariable f2 n2 =>
      String.eqb f1 f2 && (n1 =? n2)%Z
  | _, _ => false
  end.


(* ===================================================================== *)
(** * Package [encoding/json], on document trees                         *)
(* ===================================================================== *)

(** A number token is written by strconv from the Go value it encodes. *)
Inductive number : Type :=
  | NumInt (n : Z)
  | NumFloat (f : float64).

(** A JSON document.  The fields of an object are kept in the order they
    are written, duplicates included. *)
Inductive json : Type :=
  | JNull
  | JBool (b : bool)
  | JNumber (n : number)
  | JString (s : string)
  | JArray (elems : list json)
  | JObject (fields : list (string * json)).

Definition chr (n : N) : ascii := ascii_of_N n.

Definition in_range (lo hi : N) (c : ascii) : bool :=
  ((lo <=? byte_val c) && (byte_val c <=? hi))%N.

(** Width of the valid UTF-8 encoding [s] starts with, 0 when its first
    byte does not start one ([utf8.DecodeRuneInString] then answers
    [RuneError] with size 1). *)
Definition utf8_width (s : string) : nat :=
  match s with
  | EmptyString => 0
  | String b1 s1 =>
      if in_range 0 127 b1 then 1
      else if in_range 194 223 b1 then
        match s1 with
        | String b2 _ => if in_range 128 191 b2 then 2 else 0
        | _ => 0
        end
      else if in_range 224 239 b1 then
        match s1 with
        | String b2 (String b3 _) =>
            if (if in_range 224 224 b1 then in_range 160 191 b2
                else if in_range 237 237 b1 then in_range 128 159 b2
                else in_range 128 191 b2)
               && in_range 128 191 b3
            then 3 else 0
        | _ => 0
        end
      else if in_range 240 244 b1 then
        match s1 with
        | String b2 (String b3 (String b4 _)) =>
            if (if in_range 240 240 b1 then in_range 144 191 b2
                else if in_range 244 244 b1 then in_range 128 143 b2
                else in_range 128 191 b2)
               && in_range 128 191 b3 && in_range 128 191 b4
            then 4 else 0
        | _ => 0
        end
      else 0
  end.

(** U+FFFD in UTF-8. *)
Definition RuneError : string :=
  String (chr 239) (String (chr 191) (String (chr 189) EmptyString)).

(** The string a reader gets back from the text the encoder writes for
    [s]: every byte that is not part of a valid encoding is replaced by
    U+FFFD.  [skip] counts the bytes left of the rune being copied. *)
Fixpoint coerce_utf8 (skip : nat) (s : string) : string :=
  match s with
  | EmptyString => EmptyString
  | String b s' =>
      match skip with
      | S k => String b (coerce_utf8 k s')
      | O =>
          match utf8_width s with
          | O => RuneError +:+ coerce_utf8 0 s'
          | S k => String b (coerce_utf8 k s')
          end
      end
  end.

Definition ToValidUTF8 (s : string) : string := coerce_utf8 0 s.

(** Order of the keys of an encoded map: [strings.Compare] on the keys. *)
Definition key_le {A} (p q : string * A) : Prop :=
  Is_true (String.leb p.1 q.1).

Global Instance key_le_dec {A} (p q : string * A) : Decision (key_le p q).
Proof. unfold key_le. apply _. Defined.

Definition sort_keys {A} (l : list (string * A)) : list (string * A) :=
  merge_sort key_le l.

(** Left-to-right evaluation stopping at the first error. *)
Fixpoint sequence_fields {A E} (l : list (string * (A + E)))
  : list (string * A) + E :=
  match l with
  | [] => inl []
  | (k, inl a) :: l' =>
      match sequence_fields l' with
      | inl r => inl ((k, a) :: r)
      | inr e => inr e
      end
  | (_, inr e) :: _ => inr e
  end.

(** [json.Marshal] of a value: the document, or the text of the
    [UnsupportedValueError] for a float that JSON cannot write. *)
Fixpoint Marshal (v : any) : json + string :=
  match v with
  | ANil => inl JNull
  | ABool b => inl (JBool b)
  | AInt n => inl (JNumber (NumInt n))
  | AFloat f =>
      if f64_isNaN f then inr "json: unsupported value: NaN"
      else if f64_isInf f then
        inr (if Z.testbit f 63 then "json: unsupported value: -Inf"
             else "json: unsupported value: +Inf")
      else inl (JNumber (NumFloat f))
  | AString s => inl (JString (ToValidUTF8 s))
  | ASlice None => inl JNull
  | ASlice (Some l) =>
      match (fix elems (l : list any) : list json + string :=
               match l with
               | [] => inl []
               | x :: l' =>
                   match Marshal x with
                   | inl j =>
                       match elems l' with
                       | inl js => inl (j :: js)
                       | inr e => inr e
                       end
                   | inr e => inr e
                   end
               end) l with
      | inl js => inl (JArray js)
      | inr e => inr e
      end
  | AMap None => inl JNull
  | AMap (Some m) =>
      match sequence_fields
              (sort_keys (map_fold (λ k x acc, (k, Marshal x) :: acc) [] m)) with
      | inl fs => inl (JObject (prod_map ToValidUTF8 id <$> fs))
      | inr e => inr e
      end
  | AEncodedVariable foo num =>
      inl (JObject [("foo", JString (ToValidUTF8 foo));
                    ("num", JNumber (NumInt num))])
  end.

(** [strconv.ParseInt(s, 10, 64)]: an optional sign, then decimal digits;
    [None] for a syntax or a range error. *)
Definition digit_val (c : ascii) : option Z :=
  if in_range 48 57 c then Some (Z.of_N (byte_val c) - 48)%Z else None.

Fixpoint parse_digits (s : string) (acc : Z) : option Z :=
  match s with
  | EmptyString => Some acc
  | String c s' =>
      match digit_val c with
      | Some d => parse_digits s' (acc * 10 + d)%Z
      | None => None
      end
  end.

Definition ParseInt (s : string) : option Z :=
  let '(neg, digits) :=
    match s with
    | String "+" r => (false, r)
    | String "-" r => (true, r)
    | _ => (false, s)
    end in
  match digits with
  | EmptyString => None
  | _ =>
      match parse_digits digits 0 with
      | None => None
      | Some un =>
          if neg then (if (un <=? 2 ^ 63)%Z then Some (- un)%Z else None)
          else (if (un <? 2 ^ 63)%Z then Some un else None)
      end
  end.

(** ASCII lower case, and the case-insensitive match of an object key with
    a field name.  The field names of this program contain no [k] and no
    [s], the only ASCII letters with a non-ASCII case variant, so folding
    ASCII letters is all that [encoding/json] does for them. *)
Definition toLower (c : ascii) : ascii :=
  if in_range 65 90 c then chr (byte_val c + 32) else c.

Fixpoint EqualFold (s t : string) : bool :=
  match s, t with
  | EmptyString, EmptyString => true
  | String a s', String b t' => Ascii.eqb (toLower a) (toLower b) && EqualFold s' t'
  | _, _ => false
  end.

(* ===================================================================== *)
(** * mocked_request_test.go: the decoder of the tests                   *)
(* ===================================================================== *)

(** [type EncodedVariable struct { Foo string `json:"foo"`; Num int `json:"num"` }] *)
Record EncodedVariable : Type := { Foo : string; Num : Z }.

Section Decoder.

(** The decimal text strconv writes for a finite float64 (the shortest one
    that reads back as the same float).  Its digits are not modelled: the
    results below hold for whatever text it is. *)
Variable FormatFloat : float64 → string.

(** The text of a number token. *)
Definition literal (n : number) : string :=
  match n with
  | NumInt i => pretty i
  | NumFloat f => FormatFloat f
  end.

(** One member of the object being decoded into [ret].  The key selects a
    field by its name, exactly or ignoring case; with
    [DisallowUnknownFields] any other key is an error.  [null] leaves the
    field as it is; a value of the wrong kind, or a number that is not an
    [int], is an error.  Decoding goes on after an error, which is reported
    at the end ([ok] turns false and stays so). *)
Definition decode_member (st : EncodedVariable * bool) (kv : string * json)
  : EncodedVariable * bool :=
  let '(ret, ok) := st in
  let '(key, v) := kv in
  if EqualFold key "foo" then
    match v with
    | JString s => ({| Foo := s; Num := Num ret |}, ok)
    | JNull => (ret, ok)
    | _ => (ret, false)
    end
  else if EqualFold key "num" then
    match v with
    | JNumber n =>
        match ParseInt (literal n) with
        | Some i => ({| Foo := Foo ret; Num := i |}, ok)
        | None => (ret, false)
        end
    | JNull => (ret, ok)
    | _ => (ret, false)
    end
  else (ret, false).

(** [dec.Decode(&ret)] on a zero [ret], with [dec.DisallowUnknownFields()]:
    the decoded struct and whether [err == nil]. *)
Definition Decode_EncodedVariable (data : json) : EncodedVariable * bool :=
  let zero := {| Foo := ""; Num := 0 |} in
  match data with
  | JObject fields => foldl decode_member (zero, true) fields
  | JNull => (zero, true)
  | _ => (zero, false)
  end.

(** [func (EncodedVariable) Variable(req map[string]any) (any, bool)] *)
Definition EncodedVariable_Variable (req : gomap) : any * bool :=
  if (map_len req =? 0)%nat then (ANil, false)
  else if (2 <? map_len req)%nat then (ANil, false)
  else
    match Marshal (AMap req) with
    | inr _ => (ANil, false)
    | inl data =>
        let '(ret, ok) := Decode_EncodedVariable data in
        (AEncodedVariable (Foo ret) (Num ret), ok)
    end.

(* ===================================================================== *)
(** * mocked_request.go: matchers and response generators                *)
(* ===================================================================== *)

(** The type assertion [ev.Variables.(VariableDecoder)]: the method
    [Variable] of the value when its type has one. *)
Definition as_VariableDecoder (v : any) : option (gomap → any * bool) :=
  match v with
  | AEncodedVariable _ _ => Some EncodedVariable_Variable
  | _ => None
  end.

(** [func (ev ExactVariables) CompareVariables(reqVar map[string]any) bool] *)
Definition ExactVariables_CompareVariables (ev_Variables : any) (reqVar : gomap)
  : bool :=
  match as_VariableDecoder ev_Variables with
  | Some decoder_Variable =>
      let '(got, ok) := decoder_Variable reqVar in
      if negb ok then false
      else DeepEqual ev_Variables got
  | None => DeepEqual ev_Variables (AMap reqVar)
  end.

End Decoder.

(** [func (nv NoVariable) CompareVariables(got map[string]any) bool] *)
Definition NoVariable_CompareVariables (got : gomap) : bool :=
  (map_len got =? 0)%nat.

(** The set [want] that [KeyOnlyVariables.CompareVariables] builds, a
    [map[string]bool]. *)
Definition make_want (kv : list string) : gmap string bool :=
  foldl (λ want k, <[k := true]> want) ∅ kv.

(** The second loop, [for k := range got { if !want[k] { return false } }],
    on the keys in the order the range yields them. *)
Fixpoint all_wanted (want : gmap string bool) (keys : list string) : bool :=
  match keys with
  | [] => true
  | k :: keys' =>
      if negb (default false (want !! k)) then false
      else all_wanted want keys'
  end.

(** The same with the iteration order of [got] made explicit. *)
Definition KeyOnlyVariables_compare (kv : list string) (len_got : nat)
    (keys : list string) : bool :=
  let want := make_want kv in
  if negb (size want =? len_got)%nat then false
  else all_wanted want keys.

(** [func (kv KeyOnlyVariables) CompareVariables(got map[string]any) bool] *)
Definition KeyOnlyVariables_CompareVariables (kv : list string) (got : gomap)
  : bool :=
  KeyOnlyVariables_compare kv (map_len got) (map_to_list (map_entries got)).*1.

(** The result of a call: it returns, or it panics with a message. *)
Inductive outcome (A : Type) : Type :=
  | Return (a : A)
  | Panic (msg : string).
Arguments Return {A} a.
Arguments Panic {A} msg.

(** [func (r RawResponse) Response() any] *)
Definition RawResponse_Response (Payload : any) : outcome any :=
  Return Payload.

(** [type MockedRequest interface]: a value of the interface is the pair of
    its methods.  Both are functions of the receiver and the argument only;
    [Response] may panic (as [StringResponse.Response] does on a text that
    is not JSON). *)
Module MockedRequest.
Record t : Type := Build {
  CompareVariables : gomap → bool;
  Response : outcome any;
}.
End MockedRequest.

(* ===================================================================== *)
(** * request.go: requests, the response envelope and its rendering      *)
(* ===================================================================== *)

Record Request : Type := {
  Query : string;
  Variables : gomap;
}.

(** [type ResponseError struct]; [Path] is a slice, nil when not set. *)
Record ResponseError : Type := {
  Message : string;
  Path : option (list string);
  Extensions : any;
}.

(** [type Response struct]; [Errors] is a slice, nil when not set. *)
Record Response : Type := {
  Data : any;
  Errors : option (list ResponseError);
}.

(** The struct tags: ["message"], ["path"] and ["extensions"], none with
    [omitempty], so the three members are always written. *)
Definition Marshal_ResponseError (e : ResponseError) : json + string :=
  match Marshal (Extensions e) with
  | inl ext =>
      inl (JObject
             [("message", JString (ToValidUTF8 (Message e)));
              ("path", match Path e with
                       | None => JNull
                       | Some p => JArray (JString ∘ ToValidUTF8 <$> p)
                       end);
              ("extensions", ext)])
  | inr err => inr err
  end.

Fixpoint Marshal_ResponseErrors (l : list ResponseError) : list json + string :=
  match l with
  | [] => inl []
  | e :: l' =>
      match Marshal_ResponseError e with
      | inl j =>
          match Marshal_ResponseErrors l' with
          | inl js => inl (j :: js)
          | inr err => inr err
          end
      | inr err => inr err
      end
  end.

(** The struct tags: ["data"], always written, and ["errors,omitempty"],
    left out when the slice has no element. *)
Definition Marshal_Response (res : Response) : json + string :=
  match Marshal (Data res) with
  | inl data =>
      match default [] (Errors res) with
      | [] => inl (JObject [("data", data)])
      | errs =>
          match Marshal_ResponseErrors errs with
          | inl js => inl (JObject [("data", data); ("errors", JArray js)])
          | inr err => inr err
          end
      end
  | inr err => inr err
  end.

(** What a handler does to its [http.ResponseWriter]. *)
Inductive event : Type :=
  | WriteHeader (status : Z)
  | Write (body : json).

Abbreviation ResponseWriter := (list event).

(** A computation that writes to [w] and returns or panics. *)
Definition io (A : Type) : Type := ResponseWriter → outcome A * ResponseWriter.

Definition io_ret {A} (a : A) : io A := λ w, (Return a, w).

Definition io_bind {A B} (m : io A) (k : A → io B) : io B :=
  λ w, match m w with
       | (Return a, w') => k a w'
       | (Panic msg, w') => (Panic msg, w')
       end.

Notation "'do' x <- m ; k" := (io_bind m (λ x, k))
  (at level 10, x name, m at level 100, k at level 200).

Definition io_panic {A} (msg : string) : io A := λ w, (Panic msg, w).

Definition StatusOK : Z := 200.
Definition StatusNotFound : Z := 404.
Definition StatusInternalServerError : Z := 500.

(** [func respond(w http.ResponseWriter, status int, payload any)], called
    with a [Response] only. *)
Definition respond (status : Z) (payload : Response) : io unit :=
  λ w,
    let w := w ++ [WriteHeader status] in
    match Marshal_Response payload with
    | inl body => (Return tt, w ++ [Write body])
    | inr err =>
        (Panic ("goraphql_mock_server: failed to encode response: " +:+ err), w)
    end.

(** The [error] values of this program: what [errors.New] returns (also
    [io.EOF] and [io.ErrUnexpectedEOF]) and the two errors of the JSON
    decoder.  [TypeDump] stands for the [%v] rendering of the runtime's
    descriptor of the field [Type], which is not fixed by the language. *)
Inductive error : Type :=
  | errorString (s : string)
  | SyntaxError (msg : string) (Offset : Z)
  | UnmarshalTypeError (Value : string) (TypeString TypeDump : string)
      (Offset : Z) (Struct Field : string).

(** The method [Error() string]. *)
Definition Error (e : error) : string :=
  match e with
  | errorString s => s
  | SyntaxError msg _ => msg
  | UnmarshalTypeError Value TypeString _ _ Struct Field =>
      if String.eqb Struct "" && String.eqb Field "" then
        "json: cannot unmarshal " +:+ Value +:+ " into Go value of type "
        +:+ TypeString
      else
        "json: cannot unmarshal " +:+ Value +:+ " into Go struct field "
        +:+ Struct +:+ "." +:+ Field +:+ " of type " +:+ TypeString
  end.

(** What package fmt prints for an operand the verb [%e] does not apply
    to. *)
Definition badVerb_e (type value : string) : string :=
  "%!e(" +:+ type +:+ "=" +:+ value +:+ ")".

(** The verb [%e] on an error.  [%e] is a floating-point verb, so fmt does
    not call [Error]: it prints the pointed-to struct field by field, each
    field as a bad operand. *)
Definition fmt_e (e : error) : string :=
  match e with
  | errorString s => "&{" +:+ badVerb_e "string" s +:+ "}"
  | SyntaxError msg off =>
      "&{" +:+ badVerb_e "string" msg +:+ " " +:+ badVerb_e "int64" (pretty off) +:+ "}"
  | UnmarshalTypeError Value _ TypeDump off Struct Field =>
      "&{" +:+ badVerb_e "string" Value +:+ " "
      +:+ badVerb_e "*reflect.rtype" TypeDump +:+ " "
      +:+ badVerb_e "int64" (pretty off) +:+ " "
      +:+ badVerb_e "string" Struct +:+ " "
      +:+ badVerb_e "string" Field +:+ "}"
  end.

(** [errors.New(text)] *)
Definition errors_New (text : string) : error := errorString text.

(** [fmt.Errorf(prefix + "%e", err)] *)
Definition Errorf_e (prefix : string) (err : error) : error :=
  errors_New (prefix +:+ fmt_e err).

(** [func respondError(w http.ResponseWriter, status int, err error, extensions any)] *)
Definition respondError (status : Z) (err : error) (extensions : any) : io unit :=
  let res := {| Data := ANil;
                Errors := Some [{| Message := Error err;
                                   Path := None;
                                   Extensions := extensions |}] |} in
  respond status res.

(** [func respondResponse(w http.ResponseWriter, status int, data any)] *)
Definition respondResponse (status : Z) (data : any) : io unit :=
  let res := {| Data := data; Errors := None |} in
  respond status res.

(* ===================================================================== *)
(** * server.go: the registry and the dispatcher                         *)
(* ===================================================================== *)

(** [type server struct], without the fields of the HTTP test server. *)
Record server : Type := {
  queries : gmap string (list MockedRequest.t);
}.

(** [New()]: no query is registered. *)
Definition New : server := {| queries := ∅ |}.

(** [func (s *server) RegisterQuery(identifier string, mock MockedRequest)] *)
Definition RegisterQuery (identifier : string) (mock : MockedRequest.t)
    (s : server) : server :=
  let tmp := default [] (queries s !! identifier) in
  let tmp := tmp ++ [mock] in
  {| queries := <[identifier := tmp]> (queries s) |}.

(** [func (s *server) handleQuery(mock MockedRequest, req Request, w http.ResponseWriter) bool] *)
Definition handleQuery (mock : MockedRequest.t) (req : Request) : io bool :=
  if negb (MockedRequest.CompareVariables mock (Variables req)) then io_ret false
  else
    match MockedRequest.Response mock with
    | Panic msg => io_panic msg
    | Return data =>
        do _u <- respondResponse StatusOK data;
        io_ret true
    end.

(** The inner loop of [handler]; [true] when a response was sent and the
    handler returns. *)
Fixpoint handle_mockedRequests (mockedRequests : list MockedRequest.t)
    (req : Request) : io bool :=
  match mockedRequests with
  | [] => io_ret false
  | mockedRequest :: rest =>
      do sent <- handleQuery mockedRequest req;
      if sent then io_ret true else handle_mockedRequests rest req
  end.

(** The outer loop, [for id, mockedRequests := range s.queries], on the
    identifiers in the order the range yields them. *)
Fixpoint handle_queries (s : server) (ids : list string) (req : Request)
  : io bool :=
  match ids with
  | [] => io_ret false
  | id :: rest =>
      do sent <- (if Contains (Query req) id
                  then handle_mockedRequests (default [] (queries s !! id)) req
                  else io_ret false);
      if sent then io_ret true else handle_queries s rest req
  end.

(** An order in which a [range] over the registry may yield its keys: each
    registered identifier once.  Go leaves the order unspecified. *)
Definition range_order (s : server) (ids : list string) : Prop :=
  NoDup ids ∧ ∀ id, id ∈ ids ↔ is_Some (queries s !! id).

Definition not_found : error :=
  errors_New "goraphql_mock_server: mocked request not found".

(** [func (s *server) handler(w http.ResponseWriter, r *http.Request)].
    [decoded] is the result of [json.NewDecoder(r.Body).Decode(&reqBody)]:
    the request, or the error of the decoder; [ids] is the order of the
    range over [s.queries]. *)
Definition handler (s : server) (ids : list string) (decoded : Request + error)
  : io unit :=
  match decoded with
  | inr err =>
      respondError StatusInternalServerError
        (Errorf_e "goraphql_mock_server: decode request body: " err) ANil
  | inl reqBody =>
      do sent <- (if HasPrefix (TrimSpace (Query reqBody)) "query"
                  then handle_queries s ids reqBody
                  else io_ret false);
      if sent then io_ret tt
      else respondError StatusNotFound not_found ANil
  end.

(* ===================================================================== *)
(** * The properties of the design, stated on the definitions above      *)
(* ===================================================================== *)

(** The operation-type gate of the dispatcher. *)
Definition eligible (req : Request) : bool :=
  HasPrefix (TrimSpace (Query req)) "query".

(** The matcher of an entry accepts the variables of a request. *)
Definition accepts (mock : MockedRequest.t) (req : Request) : bool :=
  MockedRequest.CompareVariables mock (Variables req).

(** The entries registered under an identifier, in registration order. *)
Definition entries (s : server) (id : string) : list MockedRequest.t :=
  default [] (queries s !! id).

(** [A] was registered under [id] before [B]. *)
Definition registered_before (s : server) (id : string)
    (A B : MockedRequest.t) : Prop :=
  ∃ l1 l2 l3, queries s !! id = Some (l1 ++ A :: l2 ++ B :: l3).

(** What [handleQuery] does for an entry whose matcher accepted: the
    success envelope with the entry's payload, status 200. *)
Definition answer (mock : MockedRequest.t) : io unit :=
  match MockedRequest.Response mock with
  | Panic msg => io_panic msg
  | Return data => respondResponse StatusOK data
  end.

(** The lookup of the design (Registry.lookup), as a function: the first
    accepting entry of the first identifier, in the order [ids], that is
    contained in the query and has one.  [handler] is compared with it in
    [handler_lookup]. *)
Fixpoint lookup (s : server) (ids : list string) (req : Request)
  : option MockedRequest.t :=
  match ids with
  | [] => None
  | id :: rest =>
      if Contains (Query req) id then
        match find (λ mock, accepts mock req) (entries s id) with
        | Some mock => Some mock
        | None => lookup s rest req
        end
      else lookup s rest req
  end.

(** The body of an error envelope with one error without path. *)
Definition error_body (message : string) (extensions : json) : json :=
  JObject [("data", JNull);
           ("errors", JArray [JObject [("message", JString message);
                                       ("path", JNull);
                                       ("extensions", extensions)]])].

(** The member of an object with a given name, if any. *)
Definition member (name : string) (doc : json) : option json :=
  match doc with
  | JObject fields => snd <$> find (λ kv, String.eqb kv.1 name) fields
  | _ => None
  end.

(** Number of documents written to a response writer. *)
Definition is_Write (e : event) : bool :=
  match e with Write _ => true | WriteHeader _ => false end.

Definition bodies (w : ResponseWriter) : nat :=
  length (List.filter is_Write w).

(** The field names [EncodedVariable] knows, as the decoder matches them. *)
Definition known_field (key : string) : bool :=
  EqualFold key "foo" || EqualFold key "num".

(** Deep equality, as the design and the documentation of
    [reflect.DeepEqual] word it: the same type and, for scalars, the same
    value (Go's [==]); slices element by element; maps key by key; a nil
    slice or map only equals a nil one. *)
Inductive DeeplyEqual : any → any → Prop :=
  | DE_nil : DeeplyEqual ANil ANil
  | DE_bool b : DeeplyEqual (ABool b) (ABool b)
  | DE_int n : DeeplyEqual (AInt n) (AInt n)
  | DE_float f g : f64_eq f g = true → DeeplyEqual (AFloat f) (AFloat g)
  | DE_string s : DeeplyEqual (AString s) (AString s)
  | DE_slice_nil : DeeplyEqual (ASlice None) (ASlice None)
  | DE_slice l1 l2 :
      Forall2 DeeplyEqual l1 l2 →
      DeeplyEqual (ASlice (Some l1)) (ASlice (Some l2))
  | DE_map_nil : DeeplyEqual (AMap None) (AMap None)
  | DE_map (m1 m2 : gmap string any) :
      (∀ k, option_Forall2 DeeplyEqual (m1 !! k) (m2 !! k)) →
      DeeplyEqual (AMap (Some m1)) (AMap (Some m2))
  | DE_struct foo num :
      DeeplyEqual (AEncodedVariable foo num) (AEncodedVariable foo num).

(** Every byte of the string is below 128. *)
Fixpoint is_ascii (s : string) : bool :=
  match s with
  | EmptyString => true
  | String c s' => in_range 0 127 c && is_ascii s'
  end.

(** No entry of an identifier of [ids] contained in the query accepts. *)
Definition no_hit (s : server) (ids : list string) (req : Request) : Prop :=
  ∀ id mock, id ∈ ids → Contains (Query req) id = true →
             mock ∈ entries s id → accepts mock req = false.

(** No registered entry of an identifier contained in the query accepts. *)
Definition no_match (s : server) (req : Request) : Prop :=
  ∀ id mock, Contains (Query req) id = true →
             mock ∈ entries s id → accepts mock req = false.

(** The registries [s] and [s'] hold the same entries, except possibly
    under [id]. *)
Definition same_except (id : string) (s s' : server) : Prop :=
  ∀ id', id' ≠ id → queries s' !! id' = queries s !! id'.

(** ** Entries used in the examples *)

(** An entry as a test would embed it: a key-set matcher with a raw
    payload. *)
Definition key_entry (keys : list string) (payload : any) : MockedRequest.t :=
  MockedRequest.Build (KeyOnlyVariables_CompareVariables keys)
                      (RawResponse_Response payload).

(** An entry whose matcher accepts every variable map. *)
Definition catch_all (payload : any) : MockedRequest.t :=
  MockedRequest.Build (λ _, true) (RawResponse_Response payload).

(** The variables [{"foo": "x", "num": 1}] of a decoded request. *)
Definition foo_num : gomap :=
  Some {["foo" := AString "x"; "num" := AFloat 0x3FF0000000000000%Z]}.

Definition entryA : MockedRequest.t := key_entry ["foo"; "num"] (AString "A").
Definition entryB : MockedRequest.t := key_entry ["num"; "foo"] (AString "B").
Definition entryC : MockedRequest.t := catch_all (AString "C").

(** [entryA] then [entryB] under ["ListFoos"]. *)
Definition registry_AB : server :=
  RegisterQuery "ListFoos" entryB (RegisterQuery "ListFoos" entryA New).

Definition query_ListFoos : Request :=
  {| Query := "query { ListFoos(foo: $foo, num: $num) { foo } }";
     Variables := foo_num |}.

Definition mutation_ListFoos : Request :=
  {| Query := "mutation { ListFoos(foo: $foo, num: $num) { foo } }";
     Variables := foo_num |}.

Definition entryD : MockedRequest.t := catch_all (AString "D").

(* ===================================================================== *)
(** * More of the sources: the JSON-text response and sequences of calls *)
(* ===================================================================== *)

Section StringResponse.

(** [json.Unmarshal([]byte(s), &data)] for a [data] of type
    [map[string]any]: the map read from the text (the nil map for the text
    [null]) or the error.  The reader of JSON texts is not modelled: the
    results hold for whatever it answers. *)
Variable Unmarshal : string → gomap + error.

(** [func (s StringResponse) Response() any]; the verb [%v] prints the
    error with its method [Error]. *)
Definition StringResponse_Response (s : string) : outcome any :=
  match Unmarshal s with
  | inr err =>
      Panic ("goraphql_mock_server: failed to encode StringResponse: "
             +:+ Error err)
  | inl data => Return (AMap data)
  end.

(** [type SimpleMockedRequest struct { StringResponse; KeyOnlyVariables }]
    as a [MockedRequest]: both methods are promoted from the embedded
    fields. *)
Definition SimpleMockedRequest (sr : string) (kv : list string)
  : MockedRequest.t :=
  MockedRequest.Build (KeyOnlyVariables_CompareVariables kv)
                      (StringResponse_Response sr).

End StringResponse.

(** A sequence of calls of [RegisterQuery], first call first. *)
Definition register_all (regs : list (string * MockedRequest.t)) (s : server)
  : server :=
  foldl (λ s r, RegisterQuery r.1 r.2 s) s regs.

(** The first entry of [id] that accepts the request, as the inner loop of
    [handler] finds it. *)
Definition first_accepting (s : server) (id : string) (req : Request)
  : option MockedRequest.t :=
  find (λ mock, accepts mock req) (entries s id).

(** Every byte of the string is ASCII white space. *)
Fixpoint all_asciiSpace (s : string) : bool :=
  match s with
  | EmptyString => true
  | String c s' => asciiSpace c && all_asciiSpace s'
  end.

(** The keys of a map, in the order of [map_to_list]. *)
Definition keys_of (m : gmap string any) : list string := (map_to_list m).*1.

(** A Go [int] ([int64]). *)
Definition is_int64 (n : Z) : Prop := (- 2 ^ 63 ≤ n < 2 ^ 63)%Z.


(* ===================================================================== *)
(** * Lemmas on the strings functions                                    *)
(* ===================================================================== *)

Lemma HasPrefix_app (p t : string) : HasPrefix (p +:+ t) p = true.
Proof.
  induction p as [|c p IH]; simpl; [by destruct t|].
  by rewrite Ascii.eqb_refl, IH.
Qed.

Lemma HasPrefix_inv (s p : string) :
  HasPrefix s p = true → ∃ t, s = p +:+ t.
Proof.
  revert s; induction p as [|c p IH]; intros s H; simpl in *.
  - by exists s.
  - destruct s as [|d s]; [done|].
    apply andb_true_iff in H as [Hc Hs].
    apply Ascii.eqb_eq in Hc as ->.
    destruct (IH _ Hs) as [t ->]. by exists t.
Qed.

Lemma Contains_iff (s sub : string) :
  Contains s sub = true ↔ ∃ pre post, s = pre +:+ sub +:+ post.
Proof.
  split.
  - induction s as [|c s IH]; cbn [Contains]; intros H.
    + apply orb_true_iff in H as [H|H]; [|done].
      apply HasPrefix_inv in H as [t ->]. by exists "", t.
    + apply orb_true_iff in H as [H|H].
      * apply HasPrefix_inv in H as [t ->]. by exists "", t.
      * destruct (IH H) as (pre & post & ->). by exists (String c pre), post.
  - intros (pre & post & ->).
    induction pre as [|c pre IH].
    + change ("" +:+ sub +:+ post) with (sub +:+ post).
      destruct (sub +:+ post) eqn:E; cbn [Contains];
        rewrite <- E, HasPrefix_app; done.
    + change (String c pre +:+ sub +:+ post)
        with (String c (pre +:+ sub +:+ post)).
      cbn [Contains]. rewrite IH. apply orb_true_r.
Qed.

Lemma Contains_empty (s : string) : Contains s "" = true.
Proof. destruct s; reflexivity. Qed.

(* ===================================================================== *)
(** * Lemmas on the dispatcher                                           *)
(* ===================================================================== *)

Lemma respond_ok (status : Z) (payload : Response) (body : json) (w : ResponseWriter) :
  Marshal_Response payload = inl body →
  respond status payload w = (Return tt, w ++ [WriteHeader status; Write body]).
Proof.
  intros H. unfold respond. rewrite H. by rewrite <- app_assoc.
Qed.

Lemma respond_writes (status : Z) (payload : Response) (w : ResponseWriter) :
  ∃ evs, (respond status payload w).2 = w ++ evs ∧ bodies evs ≤ 1.
Proof.
  unfold respond. destruct (Marshal_Response payload) as [body|err]; simpl.
  - exists [WriteHeader status; Write body]. by rewrite <- app_assoc.
  - exists [WriteHeader status]. split; [done|]. cbn. lia.
Qed.

Lemma answer_writes (mock : MockedRequest.t) (w : ResponseWriter) :
  ∃ evs, (answer mock w).2 = w ++ evs ∧ bodies evs ≤ 1.
Proof.
  unfold answer. destruct (MockedRequest.Response mock) as [data|msg].
  - apply respond_writes.
  - exists []. rewrite app_nil_r. split; [done|]. cbn. lia.
Qed.

(** Sending the answer and reporting [true], then returning on [true], is
    sending the answer. *)
Lemma answer_then_return (mock : MockedRequest.t) (k : io unit) (w : ResponseWriter) :
  io_bind (io_bind (answer mock) (λ _, io_ret true))
          (λ sent : bool, if sent then io_ret tt else k) w
  = answer mock w.
Proof.
  unfold io_bind. by destruct (answer mock w) as [[[]|msg] w'].
Qed.

Lemma handleQuery_accepts (mock : MockedRequest.t) (req : Request) (w : ResponseWriter) :
  accepts mock req = true →
  handleQuery mock req w = io_bind (answer mock) (λ _, io_ret true) w.
Proof.
  unfold handleQuery, accepts, answer. intros ->. simpl.
  by destruct (MockedRequest.Response mock).
Qed.

Lemma handleQuery_rejects (mock : MockedRequest.t) (req : Request) (w : ResponseWriter) :
  accepts mock req = false → handleQuery mock req w = (Return false, w).
Proof. unfold handleQuery, accepts. by intros ->. Qed.

(** The inner loop finds the first accepting entry. *)
Lemma handle_mockedRequests_find (mocks : list MockedRequest.t) (req : Request)
    (w : ResponseWriter) :
  handle_mockedRequests mocks req w =
  match find (λ mock, accepts mock req) mocks with
  | Some mock => io_bind (answer mock) (λ _, io_ret true) w
  | None => (Return false, w)
  end.
Proof.
  induction mocks as [|m mocks IH]; [done|].
  cbn [handle_mockedRequests find]. unfold io_bind at 1.
  destruct (accepts m req) eqn:Hm.
  - rewrite (handleQuery_accepts _ _ _ Hm). unfold io_bind.
    by destruct (answer m w) as [[[]|msg] w'].
  - by rewrite (handleQuery_rejects _ _ _ Hm).
Qed.

(** The two loops compute [lookup]. *)
Lemma handle_queries_lookup (s : server) (ids : list string) (req : Request)
    (w : ResponseWriter) :
  handle_queries s ids req w =
  match lookup s ids req with
  | Some mock => io_bind (answer mock) (λ _, io_ret true) w
  | None => (Return false, w)
  end.
Proof.
  induction ids as [|id ids IH]; [done|].
  cbn [handle_queries lookup]. unfold io_bind at 1.
  destruct (Contains (Query req) id); [|done].
  rewrite handle_mockedRequests_find. fold (entries s id).
  destruct (find _ (entries s id)) as [m|]; [|done].
  unfold io_bind. by destruct (answer m w) as [[[]|msg] w'].
Qed.

(** [handler] on a decoded request: the answer of the entry [lookup]
    finds when the request passes the gate, not-found otherwise. *)
Lemma handler_lookup (s : server) (ids : list string) (req : Request)
    (w : ResponseWriter) :
  handler s ids (inl req) w =
  if eligible req then
    match lookup s ids req with
    | Some mock => answer mock w
    | None => respondError StatusNotFound not_found ANil w
    end
  else respondError StatusNotFound not_found ANil w.
Proof.
  unfold handler, eligible.
  destruct (HasPrefix (TrimSpace (Query req)) "query"); [|done].
  unfold io_bind at 1. rewrite handle_queries_lookup.
  destruct (lookup s ids req) as [m|]; [|done].
  unfold io_bind. by destruct (answer m w) as [[[]|msg] w'].
Qed.

Lemma respondError_body (status : Z) (err : error) (w : ResponseWriter) :
  respondError status err ANil w =
  (Return tt, w ++ [WriteHeader status;
                    Write (error_body (ToValidUTF8 (Error err)) JNull)]).
Proof. unfold respondError. by apply respond_ok. Qed.

(** Every run of the handler writes at most one document. *)
Lemma handler_one_response (s : server) (ids : list string)
    (decoded : Request + error) (w : ResponseWriter) :
  ∃ evs, (handler s ids decoded w).2 = w ++ evs ∧ bodies evs ≤ 1.
Proof.
  destruct decoded as [req|err].
  - rewrite handler_lookup.
    destruct (eligible req); [destruct (lookup s ids req)|];
      (apply answer_writes || apply respond_writes).
  - apply respond_writes.
Qed.

(** What [lookup] finds is an accepting entry of a contained identifier. *)
Lemma lookup_Some (s : server) (ids : list string) (req : Request)
    (mock : MockedRequest.t) :
  lookup s ids req = Some mock →
  ∃ id, id ∈ ids ∧ Contains (Query req) id = true
        ∧ mock ∈ entries s id ∧ accepts mock req = true.
Proof.
  induction ids as [|id ids IH]; [done|]. cbn [lookup]. intros H.
  assert (lookup s ids req = Some mock →
          ∃ id0, id0 ∈ id :: ids ∧ Contains (Query req) id0 = true
                 ∧ mock ∈ entries s id0 ∧ accepts mock req = true) as IH'.
  { intros H'. destruct (IH H') as (id' & Hin & Hrest).
    exists id'. split; [by apply elem_of_cons; right|done]. }
  destruct (Contains (Query req) id) eqn:Hc; [|by apply IH'].
  destruct (find _ (entries s id)) as [m|] eqn:Hf; [|by apply IH'].
  injection H as ->. apply find_some in Hf as [Hin Hacc].
  exists id. split; [by apply elem_of_cons; left|].
  split; [done|]. split; [by apply list_elem_of_In|done].
Qed.

Lemma find_none_iff {A} (f : A → bool) (l : list A) :
  find f l = None ↔ ∀ x, x ∈ l → f x = false.
Proof.
  split.
  - intros H x Hx. apply (find_none _ _ H). by apply list_elem_of_In.
  - intros H. induction l as [|a l IH]; [done|]. cbn.
    rewrite (H a) by (apply elem_of_cons; by left).
    apply IH. intros x Hx. apply H. apply elem_of_cons; by right.
Qed.

Lemma find_first {A} (f : A → bool) (l1 l2 : list A) (a : A) :
  (∀ x, x ∈ l1 → f x = false) → f a = true → find f (l1 ++ a :: l2) = Some a.
Proof.
  intros H Ha. induction l1 as [|b l1 IH]; cbn.
  - by rewrite Ha.
  - rewrite (H b) by (apply elem_of_cons; by left).
    apply IH. intros x Hx. apply H. apply elem_of_cons; by right.
Qed.

Lemma no_hit_cons (s : server) (id : string) (ids : list string) (req : Request) :
  no_hit s (id :: ids) req ↔
  (Contains (Query req) id = true →
   ∀ mock, mock ∈ entries s id → accepts mock req = false)
  ∧ no_hit s ids req.
Proof.
  unfold no_hit. split.
  - intros H. split.
    + intros Hc mock Hin. apply (H id mock); [apply elem_of_cons; by left|done..].
    + intros id' mock Hid'. apply H. apply elem_of_cons; by right.
  - intros [H1 H2] id' mock Hid' Hc Hin.
    apply elem_of_cons in Hid' as [->|Hid']; [by apply H1|by eapply H2].
Qed.

Lemma lookup_None (s : server) (ids : list string) (req : Request) :
  lookup s ids req = None ↔ no_hit s ids req.
Proof.
  induction ids as [|id ids IH]; cbn [lookup].
  - split; [|done]. intros _ id mock Hid. by apply elem_of_nil in Hid.
  - rewrite no_hit_cons.
    destruct (Contains (Query req) id) eqn:Hc.
    + destruct (find _ (entries s id)) as [m|] eqn:Hf.
      * split; [done|]. intros [H _]. apply find_some in Hf as [Hin Hacc].
        rewrite (H eq_refl m) in Hacc; [done|by apply list_elem_of_In].
      * rewrite IH. rewrite find_none_iff in Hf. split; [|by intros [_ ?]].
        intros H. split; [|done]. intros _ mock Hin. by apply Hf.
    + rewrite IH. split; [|by intros [_ ?]]. intros H. by split.
Qed.

(** The identifiers before the first hit are passed over. *)
Lemma lookup_app (s : server) (ids1 ids2 : list string) (req : Request) :
  no_hit s ids1 req → lookup s (ids1 ++ ids2) req = lookup s ids2 req.
Proof.
  induction ids1 as [|id ids1 IH]; [done|].
  rewrite no_hit_cons. intros [H H1].
  cbn [app lookup]. destruct (Contains (Query req) id) eqn:Hc; [|by apply IH].
  assert (find (λ mock, accepts mock req) (entries s id) = None) as ->; [|by apply IH].
  apply find_none_iff. intros m Hm. by apply H.
Qed.

(** Orders of the range over the registry, as registrations go. *)
Lemma range_order_New : range_order New [].
Proof.
  split; [constructor|]. intros id. split.
  - by intros H%elem_of_nil.
  - intros [x Hx]. unfold New in Hx. cbn [queries] in Hx.
    by rewrite lookup_empty in Hx.
Qed.

Lemma range_order_RegisterQuery_new (s : server) (ids : list string)
    (id : string) (mock : MockedRequest.t) :
  range_order s ids → id ∉ ids → range_order (RegisterQuery id mock s) (id :: ids).
Proof.
  intros [Hnd Hin] Hid. split; [by constructor|].
  intros id'. unfold RegisterQuery; cbn [queries].
  rewrite elem_of_cons, Hin. destruct (decide (id = id')) as [->|Hne].
  - rewrite lookup_insert_eq. split; [by eexists|by left].
  - rewrite lookup_insert_ne by done. split; [|by right].
    by intros [?|?].
Qed.

Lemma range_order_RegisterQuery_old (s : server) (ids : list string)
    (id : string) (mock : MockedRequest.t) :
  range_order s ids → id ∈ ids → range_order (RegisterQuery id mock s) ids.
Proof.
  intros [Hnd Hin] Hid. split; [done|].
  intros id'. unfold RegisterQuery; cbn [queries].
  rewrite Hin. destruct (decide (id = id')) as [->|Hne].
  - rewrite lookup_insert_eq. split; [by eexists|]. intros _. by apply Hin.
  - by rewrite lookup_insert_ne.
Qed.

Lemma range_order_perm (s : server) (ids ids' : list string) :
  range_order s ids → ids ≡ₚ ids' → range_order s ids'.
Proof.
  intros [Hnd Hin] Hp. split; [by rewrite <- Hp|].
  intros id. by rewrite <- Hp.
Qed.

(** [RegisterQuery] appends: what was registered stays before. *)
Lemma RegisterQuery_entries (s : server) (id id' : string) (mock : MockedRequest.t) :
  entries (RegisterQuery id mock s) id' =
  if decide (id = id') then entries s id' ++ [mock] else entries s id'.
Proof.
  unfold entries, RegisterQuery; cbn [queries].
  destruct (decide (id = id')) as [->|Hne].
  - by rewrite lookup_insert_eq.
  - by rewrite lookup_insert_ne.
Qed.

Lemma lookup_same_except (s s' : server) (id : string) (ids : list string)
    (req : Request) :
  same_except id s s' → Contains (Query req) id = false →
  lookup s' ids req = lookup s ids req.
Proof.
  intros Hs Hc. induction ids as [|id' ids IH]; [done|].
  cbn [lookup]. rewrite IH.
  destruct (Contains (Query req) id') eqn:Hc'; [|done].
  assert (id' ≠ id) as Hne by (intros ->; congruence).
  unfold entries. by rewrite (Hs id' Hne).
Qed.

Lemma no_match_no_hit (s : server) (ids : list string) (req : Request) :
  no_match s req → no_hit s ids req.
Proof. intros H id mock _. apply H. Qed.

Lemma ToValidUTF8_not_found :
  ToValidUTF8 (Error not_found) = "goraphql_mock_server: mocked request not found".
Proof. reflexivity. Qed.

Lemma handler_not_found (s : server) (ids : list string) (req : Request)
    (w : ResponseWriter) :
  eligible req = false ∨ no_hit s ids req →
  handler s ids (inl req) w =
  (Return tt,
   w ++ [WriteHeader StatusNotFound;
         Write (error_body "goraphql_mock_server: mocked request not found" JNull)]).
Proof.
  intros H. rewrite handler_lookup, respondError_body, ToValidUTF8_not_found.
  destruct (eligible req); [|done].
  destruct H as [?|H%lookup_None]; [done|]. by rewrite H.
Qed.

Lemma handler_decode_failure (s : server) (ids : list string) (err : error)
    (w : ResponseWriter) :
  handler s ids (inr err) w =
  (Return tt,
   w ++ [WriteHeader StatusInternalServerError;
         Write (error_body
                  (ToValidUTF8 ("goraphql_mock_server: decode request body: "
                                +:+ fmt_e err)) JNull)]).
Proof. unfold handler. by rewrite respondError_body. Qed.

Lemma decode_failure_message_ne_not_found (err : error) :
  ToValidUTF8 ("goraphql_mock_server: decode request body: " +:+ fmt_e err)
  ≠ "goraphql_mock_server: mocked request not found".
Proof.
  intros H. apply (f_equal (String.get 22)) in H. vm_compute in H. discriminate H.
Qed.

(** Registering [A] and then [B] under [id] puts [A] before [B], and
    later registrations keep them so. *)
Lemma RegisterQuery_registered_before (s : server) (id : string)
    (A B : MockedRequest.t) :
  registered_before (RegisterQuery id B (RegisterQuery id A s)) id A B.
Proof.
  exists (entries s id), [], []. unfold RegisterQuery; cbn [queries].
  rewrite !lookup_insert_eq. cbn [default from_option]. unfold Datatypes.id.
  by rewrite <- app_assoc.
Qed.

Lemma registered_before_RegisterQuery (s : server) (id id' : string)
    (A B mock : MockedRequest.t) :
  registered_before s id A B →
  registered_before (RegisterQuery id' mock s) id A B.
Proof.
  intros (l1 & l2 & l3 & H). unfold registered_before, RegisterQuery; cbn [queries].
  destruct (decide (id' = id)) as [->|Hne].
  - exists l1, l2, (l3 ++ [mock]). rewrite lookup_insert_eq, H.
    cbn [default from_option]. unfold Datatypes.id.
    by rewrite <- !app_assoc, <- !app_comm_cons, <- !app_assoc.
  - exists l1, l2, l3. by rewrite lookup_insert_ne.
Qed.

(** [NoVariable] accepts exactly the maps without a key. *)
Lemma NoVariable_iff (got : gomap) :
  NoVariable_CompareVariables got = true ↔ map_entries got = ∅.
Proof.
  unfold NoVariable_CompareVariables, map_len, map_entries.
  rewrite Nat.eqb_eq. apply map_size_empty_iff.
Qed.

(* ===================================================================== *)
(** * The dispatcher: precedence, gate, containment, not-found           *)
(* ===================================================================== *)

(** C1, as amended.  Let [A] be registered before [B] under [id], and let a
    request pass the gate (its trimmed query starts with [query]), contain
    [id] in its query and carry variables that both accept.  If no entry
    registered under [id] before [A] accepts them, and no entry of an
    identifier the range visits before [id] is hit, the dispatcher answers
    with [A]'s response (status 200, the payload under [data]), never with
    [B]'s, and it writes one document at most. *)
Theorem first_registered_entry_wins (s : server) (ids1 ids2 : list string)
    (id : string) (l1 l2 l3 : list MockedRequest.t) (A B : MockedRequest.t)
    (req : Request) (w : ResponseWriter) :
  queries s !! id = Some (l1 ++ A :: l2 ++ B :: l3) →
  eligible req = true →
  Contains (Query req) id = true →
  accepts A req = true →
  accepts B req = true →
  (∀ mock, mock ∈ l1 → accepts mock req = false) →
  no_hit s ids1 req →
  handler s (ids1 ++ id :: ids2) (inl req) w = answer A w
  ∧ (∀ data body,
       MockedRequest.Response A = Return data → Marshal data = inl body →
       handler s (ids1 ++ id :: ids2) (inl req) w =
       (Return tt, w ++ [WriteHeader StatusOK; Write (JObject [("data", body)])]))
  ∧ ∃ evs, (handler s (ids1 ++ id :: ids2) (inl req) w).2 = w ++ evs
           ∧ bodies evs ≤ 1.
Proof.
  intros Hid Hel Hc HA _ Hl1 Hids1.
  assert (handler s (ids1 ++ id :: ids2) (inl req) w = answer A w) as Heq.
  { rewrite handler_lookup, Hel, lookup_app by done.
    cbn [lookup]. rewrite Hc. unfold entries. rewrite Hid.
    cbn [default from_option]. unfold Datatypes.id.
    by rewrite (find_first _ l1 (l2 ++ B :: l3) A Hl1 HA). }
  split; [done|]. split; [|apply handler_one_response].
  intros data body Hdata Hbody. rewrite Heq. unfold answer. rewrite Hdata.
  unfold respondResponse. apply respond_ok.
  unfold Marshal_Response. cbn [Data Errors default]. by rewrite Hbody.
Qed.

Lemma first_registered_entry_wins_witness :
  handler registry_AB ([] ++ "ListFoos" :: []) (inl query_ListFoos) []
  = answer entryA [].
Proof.
  apply (first_registered_entry_wins registry_AB [] [] "ListFoos" [] [] []
           entryA entryB query_ListFoos []).
  - vm_compute. reflexivity.
  - vm_compute. reflexivity.
  - vm_compute. reflexivity.
  - vm_compute. reflexivity.
  - vm_compute. reflexivity.
  - intros mock H. apply elem_of_nil in H. destruct H.
  - intros id mock H. apply elem_of_nil in H. destruct H.
Defined.

(** C1 as stated fails in three ways: the request is not a [query]
    operation; an entry registered before [A] accepts as well; an entry
    of another identifier contained in the query is visited first. *)
Lemma first_registered_entry_wins_counterexample :
  (registered_before registry_AB "ListFoos" entryA entryB
   ∧ range_order registry_AB ["ListFoos"]
   ∧ Contains (Query mutation_ListFoos) "ListFoos" = true
   ∧ accepts entryA mutation_ListFoos = true
   ∧ accepts entryB mutation_ListFoos = true
   ∧ handler registry_AB ["ListFoos"] (inl mutation_ListFoos) []
     ≠ answer entryA [])
  ∧ (let s := RegisterQuery "ListFoos" entryB
                (RegisterQuery "ListFoos" entryA
                   (RegisterQuery "ListFoos" entryC New)) in
     registered_before s "ListFoos" entryA entryB
     ∧ range_order s ["ListFoos"]
     ∧ eligible query_ListFoos = true
     ∧ Contains (Query query_ListFoos) "ListFoos" = true
     ∧ accepts entryA query_ListFoos = true
     ∧ accepts entryB query_ListFoos = true
     ∧ handler s ["ListFoos"] (inl query_ListFoos) [] ≠ answer entryA [])
  ∧ (let s := RegisterQuery "query" entryC registry_AB in
     registered_before s "ListFoos" entryA entryB
     ∧ range_order s ["query"; "ListFoos"]
     ∧ eligible query_ListFoos = true
     ∧ Contains (Query query_ListFoos) "ListFoos" = true
     ∧ accepts entryA query_ListFoos = true
     ∧ accepts entryB query_ListFoos = true
     ∧ handler s ["query"; "ListFoos"] (inl query_ListFoos) []
       ≠ answer entryA []).
Proof.
  assert (range_order (RegisterQuery "ListFoos" entryA New) ["ListFoos"]) as HA.
  { apply range_order_RegisterQuery_new; [apply range_order_New|].
    by intros H%elem_of_nil. }
  assert (range_order registry_AB ["ListFoos"]) as HAB.
  { apply range_order_RegisterQuery_old; [done|]. apply elem_of_cons; by left. }
  split; [|split].
  - split; [by exists [], [], []|]. split; [done|].
    repeat (split; [by vm_compute|]).
    intros H. vm_compute in H. discriminate H.
  - cbn zeta. split; [by exists [entryC], [], []|]. split.
    { apply range_order_RegisterQuery_old; [|apply elem_of_cons; by left].
      apply range_order_RegisterQuery_old; [|apply elem_of_cons; by left].
      apply range_order_RegisterQuery_new; [apply range_order_New|].
      by intros H%elem_of_nil. }
    repeat (split; [by vm_compute|]).
    intros H. vm_compute in H. discriminate H.
  - cbn zeta. split; [by exists [], [], []|]. split.
    { apply range_order_RegisterQuery_new; [done|].
      intros H%elem_of_cons. destruct H as [H|H%elem_of_nil]; [discriminate H|done]. }
    repeat (split; [by vm_compute|]).
    intros H. vm_compute in H. discriminate H.
Qed.

(** C5.  A request whose trimmed query does not start with [query] (a
    mutation, a subscription, anything else) is answered with the
    not-found envelope, whatever the registry holds and in whatever order
    it is ranged over. *)
Theorem non_query_operation_is_not_found (s : server) (ids : list string)
    (req : Request) (w : ResponseWriter) :
  HasPrefix (TrimSpace (Query req)) "query" = false →
  handler s ids (inl req) w =
  (Return tt,
   w ++ [WriteHeader StatusNotFound;
         Write (error_body "goraphql_mock_server: mocked request not found" JNull)])
  ∧ handler s ids (inl req) w = handler New [] (inl req) w.
Proof.
  intros H. rewrite !handler_not_found; [done|by left..].
Qed.

Lemma non_query_operation_is_not_found_witness :
  handler registry_AB ["ListFoos"] (inl mutation_ListFoos) [] =
  (Return tt,
   [] ++ [WriteHeader StatusNotFound;
          Write (error_body "goraphql_mock_server: mocked request not found" JNull)]).
Proof.
  apply (non_query_operation_is_not_found registry_AB ["ListFoos"]
           mutation_ListFoos []).
  vm_compute. reflexivity.
Defined.


(** C8, as amended.  For a request that passes the gate, the entries of a
    registered identifier take part in the dispatch exactly when the
    identifier occurs in the raw query text, not the trimmed one:
    containment is the plain occurrence of the bytes of the identifier;
    an identifier that does not occur has no influence on the outcome,
    whatever its entries; one that occurs and has an accepting entry
    makes the dispatcher send the answer of an accepting entry of a
    contained identifier. *)
Theorem identifier_contained_in_raw_query (s : server) (ids : list string)
    (id : string) (req : Request) (w : ResponseWriter) :
  eligible req = true →
  range_order s ids →
  is_Some (queries s !! id) →
  (Contains (Query req) id = true ↔ ∃ pre post, Query req = pre +:+ id +:+ post)
  ∧ (Contains (Query req) id = false →
     ∀ s', same_except id s s' →
           handler s' ids (inl req) w = handler s ids (inl req) w)
  ∧ (Contains (Query req) id = true →
     (∃ mock, mock ∈ entries s id ∧ accepts mock req = true) →
     ∃ id' mock', id' ∈ ids ∧ Contains (Query req) id' = true
                  ∧ mock' ∈ entries s id' ∧ accepts mock' req = true
                  ∧ handler s ids (inl req) w = answer mock' w).
Proof.
  intros Hel [_ Hids] Hreg. split; [apply Contains_iff|]. split.
  - intros Hc s' Hs'. rewrite !handler_lookup.
    by rewrite (lookup_same_except s s' id ids req Hs' Hc).
  - intros Hc (mock & Hin & Hacc).
    destruct (lookup s ids req) as [mock'|] eqn:Hl.
    + destruct (lookup_Some _ _ _ _ Hl) as (id' & ? & ? & ? & ?).
      exists id', mock'. rewrite handler_lookup, Hel, Hl. done.
    + apply lookup_None in Hl.
      rewrite (Hl id mock) in Hacc; [done|by apply Hids|done..].
Qed.

Lemma identifier_contained_in_raw_query_witness :
  Contains (Query query_ListFoos) "ListFoos" = true
  ↔ ∃ pre post, Query query_ListFoos = pre +:+ "ListFoos" +:+ post.
Proof.
  apply (identifier_contained_in_raw_query registry_AB ["ListFoos"] "ListFoos"
           query_ListFoos []).
  - vm_compute. reflexivity.
  - apply range_order_RegisterQuery_old; [|apply elem_of_cons; by left].
    apply range_order_RegisterQuery_new; [apply range_order_New|].
    intros H. apply elem_of_nil in H. destruct H.
  - exists [entryA; entryB]. vm_compute. reflexivity.
Defined.

(** C8 as stated fails: the identifier [" query"] occurs in the raw query
    [" query { a }"] and not in the trimmed one, and its entry answers. *)
Lemma identifier_contained_in_raw_query_counterexample :
  let s := RegisterQuery " query" entryC New in
  let req := {| Query := " query { a }"; Variables := None |} in
  range_order s [" query"]
  ∧ eligible req = true
  ∧ Contains (TrimSpace (Query req)) " query" = false
  ∧ Contains (Query req) " query" = true
  ∧ handler s [" query"] (inl req) [] =
    (Return tt, [WriteHeader StatusOK; Write (JObject [("data", JString "C")])]).
Proof.
  cbn zeta. split.
  { apply range_order_RegisterQuery_new; [apply range_order_New|].
    by intros H%elem_of_nil. }
  repeat (split; [by vm_compute|]). by vm_compute.
Qed.

(** C9.  A decoded request that no entry of a contained identifier
    accepts is answered with status 404 and the fixed message
    [goraphql_mock_server: mocked request not found]; no decode failure
    produces that message. *)
Theorem no_match_is_not_found (s : server) (ids : list string) (req : Request)
    (w : ResponseWriter) :
  no_match s req →
  handler s ids (inl req) w =
  (Return tt,
   w ++ [WriteHeader StatusNotFound;
         Write (error_body
                  ("goraphql_mock_server: " +:+ "mocked request not found")
                  JNull)])
  ∧ ∀ s' ids' err w' message ext,
      handler s' ids' (inr err) w' =
      (Return tt, w' ++ [WriteHeader StatusInternalServerError;
                         Write (error_body message ext)]) →
      message ≠ "goraphql_mock_server: " +:+ "mocked request not found".
Proof.
  intros H. split.
  - apply handler_not_found. right. by apply no_match_no_hit.
  - intros s' ids' err w' message ext Heq.
    rewrite handler_decode_failure in Heq.
    apply (f_equal snd) in Heq. cbn [snd] in Heq.
    apply app_inv_head in Heq. unfold error_body in Heq.
    assert (message = ToValidUTF8 ("goraphql_mock_server: decode request body: "
                                   +:+ fmt_e err)) as -> by congruence.
    apply decode_failure_message_ne_not_found.
Qed.

Lemma no_match_is_not_found_witness :
  handler registry_AB ["ListFoos"]
    (inl {| Query := "query { ListFoos }"; Variables := None |}) [] =
  (Return tt,
   [] ++ [WriteHeader StatusNotFound;
          Write (error_body
                   ("goraphql_mock_server: " +:+ "mocked request not found")
                   JNull)]).
Proof.
  apply (no_match_is_not_found registry_AB ["ListFoos"]
           {| Query := "query { ListFoos }"; Variables := None |} []).
  intros id mock Hc Hin. unfold registry_AB in Hin.
  rewrite !RegisterQuery_entries in Hin.
  destruct (decide ("ListFoos" = id)) as [<-|Hne].
  - vm_compute in Hin.
    apply elem_of_cons in Hin. destruct Hin as [->|Hin]; [reflexivity|].
    apply elem_of_cons in Hin. destruct Hin as [->|Hin]; [reflexivity|].
    apply elem_of_nil in Hin. destruct Hin.
  - vm_compute in Hin. apply elem_of_nil in Hin. destruct Hin.
Defined.

(** C10, as amended.  The empty identifier is contained in every query.
    An always-accepting entry registered under it therefore makes every
    request that passes the gate receive the answer of an accepting entry,
    never not-found; the answer is that entry's own when no entry
    registered before it under the empty identifier accepts the variables
    and no entry of another identifier contained in the query does. *)
Theorem empty_identifier_catches_all (s : server) (ids : list string)
    (l1 l2 : list MockedRequest.t) (mock : MockedRequest.t) (req : Request)
    (w : ResponseWriter) :
  eligible req = true →
  range_order s ids →
  queries s !! "" = Some (l1 ++ mock :: l2) →
  (∀ v, MockedRequest.CompareVariables mock v = true) →
  Contains (Query req) "" = true
  ∧ (∃ id' mock', id' ∈ ids ∧ Contains (Query req) id' = true
                  ∧ mock' ∈ entries s id' ∧ accepts mock' req = true
                  ∧ handler s ids (inl req) w = answer mock' w)
  ∧ ((∀ m, m ∈ l1 → accepts m req = false) →
     (∀ id m, id ≠ "" → Contains (Query req) id = true →
              m ∈ entries s id → accepts m req = false) →
     handler s ids (inl req) w = answer mock w).
Proof.
  intros Hel [Hnd Hids] Hreg Hall.
  assert ("" ∈ ids) as Hin by (apply Hids; by eexists).
  split; [apply Contains_empty|]. split.
  - destruct (lookup s ids req) as [mock'|] eqn:Hl.
    + destruct (lookup_Some _ _ _ _ Hl) as (id' & ? & ? & ? & ?).
      exists id', mock'. by rewrite handler_lookup, Hel, Hl.
    + apply lookup_None in Hl.
      assert (accepts mock req = false) as Hrej.
      { apply (Hl "" mock Hin (Contains_empty _)).
        unfold entries. rewrite Hreg. cbn.
        apply elem_of_app. right. apply elem_of_cons. by left. }
      unfold accepts in Hrej. by rewrite Hall in Hrej.
  - intros Hl1 Hother.
    apply list_elem_of_split in Hin as (ids1 & ids2 & ->).
    apply NoDup_app in Hnd as (_ & Hdisj & _).
    rewrite handler_lookup, Hel, lookup_app.
    + cbn [lookup]. rewrite Contains_empty. unfold entries. rewrite Hreg.
      cbn [default from_option]. unfold Datatypes.id.
      by rewrite (find_first _ l1 l2 mock Hl1 (Hall _)).
    + intros id m Hid. apply Hother. intros ->.
      apply (Hdisj "" Hid). apply elem_of_cons. by left.
Qed.

Lemma empty_identifier_catches_all_witness :
  Contains (Query query_ListFoos) "" = true.
Proof.
  apply (empty_identifier_catches_all
           (RegisterQuery "" entryC registry_AB) [""; "ListFoos"]
           [] [] entryC query_ListFoos []).
  - vm_compute. reflexivity.
  - apply range_order_RegisterQuery_new.
    + apply range_order_RegisterQuery_old; [|apply elem_of_cons; by left].
      apply range_order_RegisterQuery_new; [apply range_order_New|].
      intros H. apply elem_of_nil in H. destruct H.
    + intros H. apply elem_of_cons in H. destruct H as [H|H]; [discriminate H|].
      apply elem_of_nil in H. destruct H.
  - vm_compute. reflexivity.
  - intros v. reflexivity.
Defined.

(** C10 as stated fails: an always-accepting entry registered under the
    empty identifier after another accepting one never answers. *)
Lemma empty_identifier_catches_all_counterexample :
  let s := RegisterQuery "" entryD (RegisterQuery "" entryC New) in
  range_order s [""]
  ∧ entryD ∈ entries s ""
  ∧ (∀ v, MockedRequest.CompareVariables entryD v = true)
  ∧ eligible query_ListFoos = true
  ∧ handler s [""] (inl query_ListFoos) [] = answer entryC []
  ∧ handler s [""] (inl query_ListFoos) [] ≠ answer entryD [].
Proof.
  cbn zeta. split.
  { apply range_order_RegisterQuery_old; [|apply elem_of_cons; by left].
    apply range_order_RegisterQuery_new; [apply range_order_New|].
    by intros H%elem_of_nil. }
  split.
  { rewrite !RegisterQuery_entries. cbn.
    apply elem_of_cons. right. apply elem_of_cons. by left. }
  split; [done|]. split; [by vm_compute|]. split; [by vm_compute|].
  intros H. vm_compute in H. discriminate H.
Qed.

(* ===================================================================== *)
(** * The envelope                                                       *)
(* ===================================================================== *)

(** C6, as amended.  A success response is the object with the single
    member [data], the encoded payload, and no member [errors].  An error
    response is an object whose member [data] is present and [null] and
    whose member [errors] is an array of one object with the members
    [message], [path] and [extensions], the last two always written
    ([null] without a path or extensions).  In every envelope [data] is
    written, and [errors] is left out exactly when there is no error. *)
Theorem envelope_rendering (status : Z) (data extensions : any) (body ext : json)
    (err : error) (w : ResponseWriter) :
  Marshal data = inl body →
  Marshal extensions = inl ext →
  respondResponse status data w =
    (Return tt, w ++ [WriteHeader status; Write (JObject [("data", body)])])
  ∧ respondError status err extensions w =
    (Return tt,
     w ++ [WriteHeader status;
           Write (JObject
                    [("data", JNull);
                     ("errors",
                      JArray [JObject [("message", JString (ToValidUTF8 (Error err)));
                                       ("path", JNull);
                                       ("extensions", ext)]])])])
  ∧ ∀ res doc,
      Marshal_Response res = inl doc →
      (∃ d, Marshal (Data res) = inl d ∧ member "data" doc = Some d)
      ∧ (member "errors" doc = None ↔ default [] (Errors res) = []).
Proof.
  intros Hdata Hext. split; [|split].
  - unfold respondResponse. apply respond_ok.
    unfold Marshal_Response. cbn [Data Errors default]. by rewrite Hdata.
  - unfold respondError. apply respond_ok.
    unfold Marshal_Response.
    cbn [Data Errors default from_option Marshal]. unfold Datatypes.id.
    cbn [Marshal_ResponseErrors]. unfold Marshal_ResponseError.
    cbn [Message Path Extensions]. by rewrite Hext.
  - intros res doc. unfold Marshal_Response.
    destruct (Marshal (Data res)) as [d|e]; [|done].
    destruct (default [] (Errors res)) as [|e errs] eqn:He.
    + intros [= <-]. split; [by exists d|done].
    + destruct (Marshal_ResponseErrors (e :: errs)) as [js|?]; [|done].
      intros [= <-]. split; [by exists d|done].
Qed.

Lemma envelope_rendering_witness :
  respondResponse StatusOK (AString "A") [] =
  (Return tt, [] ++ [WriteHeader StatusOK; Write (JObject [("data", JString "A")])]).
Proof.
  apply (envelope_rendering StatusOK (AString "A") ANil (JString "A") JNull
           not_found []).
  - reflexivity.
  - reflexivity.
Defined.

(** C6 as stated fails: the error envelope has a member [data]. *)
Lemma envelope_rendering_counterexample :
  ∃ doc, respondError StatusNotFound not_found ANil [] =
         (Return tt, [WriteHeader StatusNotFound; Write doc])
         ∧ member "data" doc = Some JNull
         ∧ member "data" doc ≠ None.
Proof.
  eexists. split; [by vm_compute|]. split; [by vm_compute|]. by vm_compute.
Qed.

(* ===================================================================== *)
(** * The key-set matcher                                                *)
(* ===================================================================== *)

Lemma make_want_lookup_acc (kv : list string) (acc : gmap string bool) (k : string) :
  foldl (λ want k, <[k := true]> want) acc kv !! k =
  if decide (k ∈ kv) then Some true else acc !! k.
Proof.
  revert acc. induction kv as [|x kv IH]; intros acc; cbn [foldl].
  - destruct (decide (k ∈ [])) as [H%elem_of_nil|]; done.
  - rewrite IH. destruct (decide (k ∈ kv)) as [Hin|Hnin].
    + rewrite decide_True; [done|]. apply elem_of_cons. by right.
    + destruct (decide (k = x)) as [->|Hne].
      * rewrite lookup_insert_eq. rewrite decide_True; [done|].
        apply elem_of_cons. by left.
      * rewrite lookup_insert_ne by done. rewrite decide_False; [done|].
        intros [?|?]%elem_of_cons; done.
Qed.

Lemma make_want_lookup (kv : list string) (k : string) :
  default false (make_want kv !! k) = true ↔ k ∈ kv.
Proof.
  unfold make_want. rewrite make_want_lookup_acc, lookup_empty.
  destruct (decide (k ∈ kv)); cbn; split; done.
Qed.

Lemma make_want_dom (kv : list string) :
  dom (make_want kv) = list_to_set kv.
Proof.
  apply set_eq. intros k. rewrite elem_of_dom, elem_of_list_to_set.
  unfold make_want. rewrite make_want_lookup_acc, lookup_empty.
  destruct (decide (k ∈ kv)); split; try done.
Qed.

Lemma all_wanted_iff (want : gmap string bool) (keys : list string) :
  all_wanted want keys = true ↔ ∀ k, k ∈ keys → default false (want !! k) = true.
Proof.
  induction keys as [|k keys IH]; cbn [all_wanted].
  - split; [|done]. by intros _ k H%elem_of_nil.
  - destruct (default false (want !! k)) eqn:Hk; cbn [negb].
    + rewrite IH. split.
      * intros H k' [->|?]%elem_of_cons; [done|by apply H].
      * intros H k' Hk'. apply H. apply elem_of_cons. by right.
    + split; [done|]. intros H. rewrite <- Hk. apply H. apply elem_of_cons. by left.
Qed.

Lemma elem_of_range_keys {V} (m : gmap string V) (k : string) :
  k ∈ (map_to_list m).*1 ↔ k ∈ dom m.
Proof.
  rewrite elem_of_dom, list_elem_of_fmap. split.
  - intros ([k' v] & -> & Hin%elem_of_map_to_list). by exists v.
  - intros [v Hv]. exists (k, v). split; [done|]. by apply elem_of_map_to_list.
Qed.

(** The matcher with the keys of [got] in any order. *)
Lemma KeyOnlyVariables_compare_iff (kv : list string) (got : gmap string any)
    (keys : list string) :
  (∀ k, k ∈ keys ↔ k ∈ dom got) →
  KeyOnlyVariables_compare kv (size got) keys = true
  ↔ dom got = list_to_set kv.
Proof.
  intros Hkeys. unfold KeyOnlyVariables_compare.
  rewrite <- make_want_dom, <- (size_dom (D:=gset string) (make_want kv)).
  rewrite <- (size_dom (D:=gset string) got).
  destruct (size (dom (make_want kv)) =? size (dom got))%nat eqn:Hsz; cbn [negb].
  - apply Nat.eqb_eq in Hsz. rewrite all_wanted_iff. split.
    + intros H. apply set_subseteq_size_eq; [|lia].
      intros k Hk. apply Hkeys in Hk. apply H in Hk.
      apply make_want_lookup in Hk. rewrite make_want_dom.
      by apply elem_of_list_to_set.
    + intros Heq k Hk. apply make_want_lookup.
      apply Hkeys in Hk. rewrite Heq, make_want_dom in Hk.
      by apply elem_of_list_to_set in Hk.
  - apply Nat.eqb_neq in Hsz. split; [done|]. intros Heq. by rewrite Heq in Hsz.
Qed.

Lemma bool_eq_iff (a b : bool) : (a = true ↔ b = true) → a = b.
Proof. destruct a, b; intros [H1 H2]; try done; [by rewrite H1|by rewrite H2]. Qed.

(** C2.  [KeyOnlyVariables] accepts a variable map exactly when the set
    of its keys is the set of the listed keys.  The values are not looked
    at: two maps with the same keys get the same answer; and the answer
    does not depend on the order in which the keys are ranged over. *)
Theorem key_only_matches_key_set (K : list string) (M : gomap) :
  (KeyOnlyVariables_CompareVariables K M = true
   ↔ dom (map_entries M) = list_to_set K)
  ∧ (∀ M' : gomap,
       dom (map_entries M') = dom (map_entries M) →
       KeyOnlyVariables_CompareVariables K M' = KeyOnlyVariables_CompareVariables K M)
  ∧ (∀ keys,
       keys ≡ₚ (map_to_list (map_entries M)).*1 →
       KeyOnlyVariables_compare K (map_len M) keys
       = KeyOnlyVariables_CompareVariables K M).
Proof.
  assert (∀ M : gomap,
            KeyOnlyVariables_CompareVariables K M = true
            ↔ dom (map_entries M) = list_to_set K) as Hiff.
  { intros M0. unfold KeyOnlyVariables_CompareVariables, map_len.
    fold (map_entries M0). apply KeyOnlyVariables_compare_iff.
    intros k. apply elem_of_range_keys. }
  split; [apply Hiff|]. split.
  - intros M' Hdom. apply bool_eq_iff. by rewrite !Hiff, Hdom.
  - intros keys Hp. apply bool_eq_iff. rewrite Hiff.
    unfold map_len. fold (map_entries M). apply KeyOnlyVariables_compare_iff.
    intros k. rewrite Hp. apply elem_of_range_keys.
Qed.

(* ===================================================================== *)
(** * Deep equality                                                      *)
(* ===================================================================== *)

Lemma any_size_elem (l : list any) (x : any) :
  x ∈ l → any_size x < any_size (ASlice (Some l)).
Proof.
  cbn [any_size]. induction l as [|a l IH]; [by intros H%elem_of_nil|].
  cbn [foldr]. intros [->|H]%elem_of_cons; [lia|]. specialize (IH H). lia.
Qed.

Lemma any_size_entry (m : gmap string any) (k : string) (v : any) :
  m !! k = Some v → any_size v < any_size (AMap (Some m)).
Proof.
  cbn [any_size]. rewrite map_fold_foldr. intros H%elem_of_map_to_list.
  induction (map_to_list m) as [|[k' v'] l IH]; [by apply elem_of_nil in H|].
  cbn [foldr uncurry]. apply elem_of_cons in H as [[= <- <-]|H]; [lia|].
  specialize (IH H). cbn in *. lia.
Qed.

Lemma all2_Forall2 (P : any → any → Prop) (l1 l2 : list any) :
  (∀ x, x ∈ l1 → ∀ y, DeepEqual x y = true ↔ P x y) →
  (length l1 =? length l2)%nat && all2 DeepEqual l1 l2 = true ↔ Forall2 P l1 l2.
Proof.
  revert l2. induction l1 as [|a l1 IH]; intros l2 HP.
  - destruct l2 as [|b l2]; cbn.
    + split; [constructor|done].
    + split; [done|by inversion 1].
  - destruct l2 as [|b l2]; [cbn; split; [done|by inversion 1]|].
    cbn [length all2 Nat.eqb]. rewrite andb_assoc, (andb_comm _ (DeepEqual a b)).
    rewrite <- andb_assoc, andb_true_iff, IH, HP.
    + split; [intros [? ?]; by constructor|by inversion 1].
    + apply elem_of_cons. by left.
    + intros x Hx. apply HP. apply elem_of_cons. by right.
Qed.

Lemma fold_entries_iff (f : string → any → bool) (m : gmap string any) :
  map_fold (λ k v acc, acc && f k v) true m = true
  ↔ ∀ k v, m !! k = Some v → f k v = true.
Proof.
  rewrite map_fold_foldr.
  assert (∀ l : list (string * any),
            foldr (uncurry (λ k v acc, acc && f k v)) true l = true
            ↔ ∀ k v, (k, v) ∈ l → f k v = true) as Hl.
  { induction l as [|[k v] l IH]; cbn [foldr uncurry].
    - split; [|done]. by intros _ k v H%elem_of_nil.
    - rewrite andb_true_iff, IH. split.
      + intros [H1 H2] k' v' [[= -> ->]|?]%elem_of_cons; [done|by apply H1].
      + intros H. split; [|apply H; apply elem_of_cons; by left].
        intros k' v' ?. apply H. apply elem_of_cons. by right. }
  rewrite Hl. split; intros H k v ?; apply H; by apply elem_of_map_to_list.
Qed.

Lemma maps_related_iff (P : any → any → Prop) (m1 m2 : gmap string any) :
  (size m1 = size m2 ∧ ∀ k v1, m1 !! k = Some v1 → ∃ v2, m2 !! k = Some v2 ∧ P v1 v2)
  ↔ ∀ k, option_Forall2 P (m1 !! k) (m2 !! k).
Proof.
  split.
  - intros [Hsz H].
    assert (dom m1 = dom m2) as Hdom.
    { apply set_subseteq_size_eq.
      - intros k [v1 Hk]%elem_of_dom. destruct (H k v1 Hk) as (v2 & ? & _).
        apply elem_of_dom. by eexists.
      - rewrite !size_dom. lia. }
    intros k. destruct (m1 !! k) as [v1|] eqn:H1.
    + destruct (H k v1 H1) as (v2 & -> & ?). by constructor.
    + apply not_elem_of_dom in H1. rewrite Hdom in H1.
      apply not_elem_of_dom in H1. rewrite H1. constructor.
  - intros H. split.
    + rewrite <- !(size_dom (D:=gset string)). f_equal. apply set_eq. intros k.
      rewrite !elem_of_dom. specialize (H k).
      inversion H; split; intros [? ?]; (done || by eexists).
    + intros k v1 Hk. specialize (H k). rewrite Hk in H.
      inversion H as [? v2 ? |]; subst. by exists v2.
Qed.

(** [reflect.DeepEqual] decides deep equality. *)
Lemma DeepEqual_DeeplyEqual (x y : any) :
  DeepEqual x y = true ↔ DeeplyEqual x y.
Proof.
  remember (any_size x) as n eqn:Hn. revert x y Hn.
  induction n as [n IH] using lt_wf_ind. intros x y ->.
  destruct x as [|a|a|a|a|[l1|]|[m1|]|f1 n1], y as [|b|b|b|b|[l2|]|[m2|]|f2 n2];
    cbn [DeepEqual];
    try (split; [discriminate|by inversion 1]);
    try (split; [constructor|done]).
  - rewrite Bool.eqb_true_iff. split; [intros ->; constructor|by inversion 1].
  - rewrite Z.eqb_eq. split; [intros ->; constructor|by inversion 1].
  - split; [by constructor|by inversion 1].
  - rewrite String.eqb_eq. split; [intros ->; constructor|by inversion 1].
  - rewrite (all2_Forall2 DeeplyEqual).
    + split; [by constructor|by inversion 1].
    + intros x Hx y. by eapply IH; [apply any_size_elem|].
  - rewrite andb_true_iff, Nat.eqb_eq, fold_entries_iff.
    split.
    + intros [Hsz H]. constructor. apply maps_related_iff. split; [done|].
      intros k v1 Hk. specialize (H k v1 Hk).
      destruct (m2 !! k) as [v2|]; [|done]. exists v2. split; [done|].
      by eapply IH; [eapply any_size_entry|..].
    + inversion 1 as [| | | | | | | |? ? Hrel|]; subst.
      apply maps_related_iff in Hrel as [Hsz Hrel]. split; [done|].
      intros k v1 Hk. destruct (Hrel k v1 Hk) as (v2 & -> & ?).
      by eapply IH; [eapply any_size_entry|..].
  - rewrite andb_true_iff, String.eqb_eq, Z.eqb_eq.
    split; [intros [-> ->]; constructor|by inversion 1].
Qed.

Lemma DeepEqual_TypeOf (a b : any) :
  TypeOf a ≠ TypeOf b → DeepEqual a b = false.
Proof.
  destruct a as [| | | | |[|]|[|]|], b as [| | | | |[|]|[|]|];
    cbn [TypeOf DeepEqual]; done.
Qed.

Section ExactVariables.

Variable FormatFloat : float64 → string.

(** C4.  With a reference map, which has no decoder, [ExactVariables]
    accepts the variables exactly when the reference and the incoming map
    are deeply equal.  Values of different types are never equal, the
    scalars in particular: the integer 1 is not the string ["1"], an
    integer is not a floating-point number; and a reference that differs
    from the request in the type of one value is rejected. *)
Theorem exact_match_is_deep_equality (R M : gomap) :
  (ExactVariables_CompareVariables FormatFloat (AMap R) M = true
   ↔ DeeplyEqual (AMap R) (AMap M))
  ∧ (∀ a b, TypeOf a ≠ TypeOf b → DeepEqual a b = false ∧ ¬ DeeplyEqual a b)
  ∧ (∀ k a b,
       map_entries R !! k = Some a → map_entries M !! k = Some b →
       TypeOf a ≠ TypeOf b →
       ExactVariables_CompareVariables FormatFloat (AMap R) M = false)
  ∧ DeepEqual (AInt 1) (AString "1") = false
  ∧ (∀ n f, DeepEqual (AInt n) (AFloat f) = false).
Proof.
  assert (∀ a b, TypeOf a ≠ TypeOf b → DeepEqual a b = false ∧ ¬ DeeplyEqual a b)
    as Hty.
  { intros a b Hne. split; [by apply DeepEqual_TypeOf|].
    rewrite <- DeepEqual_DeeplyEqual. by rewrite DeepEqual_TypeOf. }
  split; [apply DeepEqual_DeeplyEqual|]. split; [done|]. split; [|done].
  intros k a b Ha Hb Hne.
  destruct (ExactVariables_CompareVariables FormatFloat (AMap R) M) eqn:E; [|done].
  apply DeepEqual_DeeplyEqual in E.
  destruct R as [m1|], M as [m2|]; unfold map_entries in Ha, Hb;
    cbn [default from_option] in Ha, Hb; unfold Datatypes.id in Ha, Hb;
    try by rewrite lookup_empty in Ha.
  - inversion E as [| | | | | | | |? ? Hrel|]; subst.
    specialize (Hrel k). rewrite Ha, Hb in Hrel.
    inversion Hrel; subst. by destruct (Hty a b Hne).
  - by rewrite lookup_empty in Hb.
Qed.

End ExactVariables.

(* ===================================================================== *)
(** * The decoder of the tests                                           *)
(* ===================================================================== *)

Lemma in_range_ascii_chr (c : ascii) :
  in_range 0 127 c = true → in_range 65 90 c = true →
  in_range 0 127 (chr (byte_val c + 32)) = true.
Proof.
  unfold in_range, chr, byte_val. intros _ H.
  apply andb_true_iff in H as [H1 H2].
  apply N.leb_le in H1, H2. rewrite N_ascii_embedding by lia.
  apply andb_true_iff. split; apply N.leb_le; lia.
Qed.

Lemma toLower_ascii (c : ascii) :
  in_range 0 127 (toLower c) = in_range 0 127 c.
Proof.
  unfold toLower. destruct (in_range 65 90 c) eqn:H; [|done].
  assert (in_range 0 127 c = true) as Hc.
  { unfold in_range in *. apply andb_true_iff in H as [H1 H2].
    apply N.leb_le in H1, H2. apply andb_true_iff. split; apply N.leb_le; lia. }
  rewrite Hc. by apply in_range_ascii_chr.
Qed.

Lemma EqualFold_ascii (s t : string) :
  EqualFold s t = true → is_ascii t = true → is_ascii s = true.
Proof.
  revert t. induction s as [|a s IH]; intros [|b t]; cbn; try done.
  intros [Hab Hst]%andb_true_iff [Hb Ht]%andb_true_iff.
  apply Ascii.eqb_eq in Hab. rewrite (IH t Hst Ht), andb_true_r.
  by rewrite <- toLower_ascii, Hab, toLower_ascii.
Qed.

Lemma coerce_utf8_ascii (s : string) :
  is_ascii (coerce_utf8 0 s) = true → coerce_utf8 0 s = s.
Proof.
  induction s as [|b s IH]; [done|]. cbn [coerce_utf8].
  destruct (utf8_width (String b s)) as [|k] eqn:Hw.
  - intros H. vm_compute in H. discriminate H.
  - cbn [is_ascii]. intros [Hb Hs]%andb_true_iff.
    cbn [utf8_width] in Hw. rewrite Hb in Hw. injection Hw as <-.
    by rewrite (IH Hs).
Qed.

Lemma known_field_ToValidUTF8 (k : string) :
  known_field (ToValidUTF8 k) = true → known_field k = true.
Proof.
  intros H. assert (is_ascii (ToValidUTF8 k) = true) as Ha.
  { unfold known_field in H. apply orb_true_iff in H as [H|H];
      by apply (EqualFold_ascii _ _ H). }
  unfold ToValidUTF8 in *. by rewrite (coerce_utf8_ascii k Ha) in H.
Qed.

Lemma sequence_fields_keys {A E} (l : list (string * (A + E))) (fs : list (string * A)) :
  sequence_fields l = inl fs → fs.*1 = l.*1.
Proof.
  revert fs. induction l as [|[k [a|e]] l IH]; intros fs; cbn.
  - by intros [= <-].
  - destruct (sequence_fields l) as [r|]; [|done].
    intros [= <-]. cbn. by rewrite (IH r).
  - done.
Qed.

Lemma fold_cons_entries (m : gmap string any) :
  (map_fold (λ k x acc, (k, Marshal x) :: acc) [] m).*1 = (map_to_list m).*1.
Proof.
  rewrite map_fold_foldr.
  induction (map_to_list m) as [|[k v] l IH]; [done|]. cbn. by rewrite IH.
Qed.

(** The members of an encoded map carry all its keys. *)
Lemma Marshal_map_keys (m : gmap string any) (data : json) :
  Marshal (AMap (Some m)) = inl data →
  ∃ fields, data = JObject fields
            ∧ ∀ k, k ∈ dom m → ToValidUTF8 k ∈ fields.*1.
Proof.
  cbn [Marshal].
  destruct (sequence_fields _) as [fs|] eqn:Hfs; [|done].
  intros [= <-]. eexists. split; [done|]. intros k Hk.
  apply sequence_fields_keys in Hfs.
  rewrite <- list_fmap_compose.
  apply list_elem_of_fmap. 
  assert (k ∈ fs.*1) as Hin.
  { rewrite Hfs. unfold sort_keys. rewrite merge_sort_Permutation.
    rewrite fold_cons_entries. by apply elem_of_range_keys. }
  apply list_elem_of_fmap in Hin as ([k' j] & -> & Hin).
  by exists (k', j).
Qed.

Section Decoder_lemmas.

Variable FormatFloat : float64 → string.

Lemma decode_member_ok (st : EncodedVariable * bool) (kv : string * json)
    (ret : EncodedVariable) :
  decode_member FormatFloat st kv = (ret, true) →
  st.2 = true ∧ known_field kv.1 = true.
Proof.
  destruct st as [r ok], kv as [key v]. unfold decode_member, known_field.
  cbn [fst snd].
  destruct (EqualFold key "foo"); [|destruct (EqualFold key "num")].
  - destruct v; intros [= ? ?]; by subst.
  - destruct v as [| |n| | |]; try (intros [= ? ?]; by subst).
    destruct (ParseInt (literal FormatFloat n)); intros [= ? ?]; by subst.
  - by intros [= ? ?].
Qed.

Lemma decode_members_ok (fields : list (string * json))
    (st : EncodedVariable * bool) (ret : EncodedVariable) :
  foldl (decode_member FormatFloat) st fields = (ret, true) →
  st.2 = true ∧ ∀ key, key ∈ fields.*1 → known_field key = true.
Proof.
  revert st. induction fields as [|kv fields IH]; intros st; cbn [foldl].
  - intros ->. split; [done|]. by intros key H%elem_of_nil.
  - intros H. destruct (IH _ H) as [Hok Hknown].
    destruct (decode_member FormatFloat st kv) as [r ok] eqn:Hd.
    cbn in Hok. subst ok. apply decode_member_ok in Hd as [? ?].
    split; [done|]. cbn [fmap list_fmap].
    intros key [->|?]%elem_of_cons; [done|by apply Hknown].
Qed.

(** What a successful [Variable] requires of the incoming map. *)
Lemma EncodedVariable_Variable_ok (req : gomap) (got : any) :
  EncodedVariable_Variable FormatFloat req = (got, true) →
  0 < map_len req ≤ 2
  ∧ (∀ k, k ∈ dom (map_entries req) → known_field k = true)
  ∧ ∃ foo num, got = AEncodedVariable foo num.
Proof.
  unfold EncodedVariable_Variable.
  destruct (map_len req =? 0)%nat eqn:H0; [done|].
  destruct (2 <? map_len req)%nat eqn:H2; [done|].
  apply Nat.eqb_neq in H0. apply Nat.ltb_ge in H2.
  destruct (Marshal (AMap req)) as [data|] eqn:Hm; [|done].
  destruct (Decode_EncodedVariable FormatFloat data) as [ret ok] eqn:Hd.
  intros [= <- ->]. split; [lia|]. split; [|by eexists _, _].
  destruct req as [m|]; [|done].
  apply Marshal_map_keys in Hm as (fields & -> & Hkeys).
  cbn [Decode_EncodedVariable] in Hd.
  apply decode_members_ok in Hd as [_ Hknown].
  intros k Hk. apply known_field_ToValidUTF8, Hknown, Hkeys, Hk.
Qed.

(** C3.  With a reference that has a decoder (the struct
    [EncodedVariable]), [ExactVariables] accepts the variables exactly
    when [Variable] decodes them and the decoded value is deeply equal to
    the reference.  The decoding succeeds only for a map that is not
    empty, has at most two keys and has no key other than the names of the
    fields of the struct; so a map with one more, unknown field is
    rejected whatever its other fields are. *)
Theorem exact_match_with_decoder (ref_Foo : string) (ref_Num : Z) (M : gomap) :
  let ref := AEncodedVariable ref_Foo ref_Num in
  (ExactVariables_CompareVariables FormatFloat ref M = true
   ↔ ∃ got, EncodedVariable_Variable FormatFloat M = (got, true)
            ∧ DeeplyEqual ref got)
  ∧ (∀ got, EncodedVariable_Variable FormatFloat M = (got, true) →
            0 < map_len M ≤ 2
            ∧ ∀ k, k ∈ dom (map_entries M) → known_field k = true)
  ∧ (∀ k, k ∈ dom (map_entries M) → known_field k = false →
          ExactVariables_CompareVariables FormatFloat ref M = false).
Proof.
  cbn zeta.
  assert (ExactVariables_CompareVariables FormatFloat
            (AEncodedVariable ref_Foo ref_Num) M = true
          ↔ ∃ got, EncodedVariable_Variable FormatFloat M = (got, true)
                   ∧ DeeplyEqual (AEncodedVariable ref_Foo ref_Num) got) as Hiff.
  { unfold ExactVariables_CompareVariables. cbn [as_VariableDecoder].
    destruct (EncodedVariable_Variable FormatFloat M) as [got [|]]; cbn [negb].
    - rewrite DeepEqual_DeeplyEqual. split; [by exists got|].
      by intros (got' & [= <-] & ?).
    - split; [done|]. by intros (got' & [= ] & ?). }
  split; [done|]. split.
  - intros got Hgot. by destruct (EncodedVariable_Variable_ok M got Hgot) as (? & ? & _).
  - intros k Hk Hunknown.
    destruct (ExactVariables_CompareVariables _ _ M) eqn:E; [|done].
    destruct Hiff as [Hiff _]. destruct (Hiff eq_refl) as (got & Hgot & _).
    destruct (EncodedVariable_Variable_ok M got Hgot) as (_ & Hknown & _).
    by rewrite (Hknown k Hk) in Hunknown.
Qed.

End Decoder_lemmas.

(* ===================================================================== *)
(** * The tests of the repository, replayed                              *)
(* ===================================================================== *)

(** [TestKeyOnlyVariables]; the values of the maps play no part, [nil]
    stands for the empty struct of the test. *)
Example TestKeyOnlyVariables_1 :
  KeyOnlyVariables_CompareVariables ["foo"; "test"] (Some {["foo" := ANil]})
  = false.
Proof. reflexivity. Qed.

Example TestKeyOnlyVariables_2 :
  KeyOnlyVariables_CompareVariables ["foo"; "test"]
    (Some {["foo" := ANil; "test" := ABool true]}) = true.
Proof. reflexivity. Qed.

Example TestKeyOnlyVariables_3 :
  KeyOnlyVariables_CompareVariables ["foo"; "test"]
    (Some {["foo" := ANil; "test" := ABool true; "fail" := AInt 1]}) = false.
Proof. reflexivity. Qed.

Section TestExactVariable.

Variable FormatFloat : float64 → string.

Example TestExactVariable_1 :
  ExactVariables_CompareVariables FormatFloat
    (AMap (Some {["foo" := AString "1"]})) (Some {["foo" := AInt 1]}) = false.
Proof. reflexivity. Qed.

Example TestExactVariable_2 :
  ExactVariables_CompareVariables FormatFloat
    (AMap (Some {["foo" := AInt 0]})) (Some {["foo" := AInt 1]}) = false.
Proof. reflexivity. Qed.

Example TestExactVariable_3 :
  ExactVariables_CompareVariables FormatFloat
    (AMap (Some {["foo" := AInt 1; "test" := AString "str"]}))
    (Some {["foo" := AInt 1; "test" := AString "str"]}) = true.
Proof. reflexivity. Qed.

Example TestExactVariable_4 :
  ExactVariables_CompareVariables FormatFloat
    (AMap (Some {["foo" := AInt 1; "test" := AString "str"]}))
    (Some {["foo" := AInt 1; "test" := AString "str"; "fail" := ABool true]})
  = false.
Proof. reflexivity. Qed.

Example TestExactVariable_5 :
  ExactVariables_CompareVariables FormatFloat (AEncodedVariable "str" 3)
    (Some {["foo" := AString "no"; "num" := AInt 2]}) = false.
Proof. reflexivity. Qed.

Example TestExactVariable_6 :
  ExactVariables_CompareVariables FormatFloat (AEncodedVariable "str" 0)
    (Some {["foo" := AString "str"]}) = true.
Proof. reflexivity. Qed.

Example TestExactVariable_7 :
  ExactVariables_CompareVariables FormatFloat (AEncodedVariable "str" 3)
    (Some {["foo" := AString "str"; "num" := AInt 3]}) = true.
Proof. reflexivity. Qed.

Example TestExactVariable_8 :
  ExactVariables_CompareVariables FormatFloat (AEncodedVariable "str" 3)
    (Some {["foo" := AString "str"; "num" := AInt 3; "fail" := ABool true]})
  = false.
Proof. reflexivity. Qed.

(** The decoder matches the names of the fields ignoring case, and the
    member written last wins. *)
Example decoder_folds_case :
  EncodedVariable_Variable FormatFloat
    (Some {["FOO" := AString "x"; "foo" := AString "str"]})
  = (AEncodedVariable "str" 0, true).
Proof. reflexivity. Qed.

End TestExactVariable.

(** White space around the query, ASCII or not, is trimmed before the
    gate; the identifier is looked for in the query as received. *)
Example TrimSpace_ascii :
  TrimSpace (String (chr 9) (String (chr 10) " query { a }  "))
  = "query { a }".
Proof. reflexivity. Qed.

Example TrimSpace_nbsp :
  TrimSpace (String (chr 194) (String (chr 160) "query")
             +:+ String (chr 226) (String (chr 128) (String (chr 168) "")))
  = "query".
Proof. reflexivity. Qed.

Example Contains_case_sensitive :
  Contains "query { ListFoos }" "ListFoos" = true
  ∧ Contains "query { ListFoos }" "listfoos" = false
  ∧ Contains "query { ListFoos }" "List*" = false.
Proof. by vm_compute. Qed.

(** The first scenario of the design: one key-set entry under
    ["ListFoos"].  Variables with both keys get its payload, variables
    with one key get not-found. *)
Example scenario_ListFoos :
  let payload := AMap (Some {["ListFoos" := AMap (Some {["foo" := AInt 789]})]}) in
  let s := RegisterQuery "ListFoos" (key_entry ["foo"; "num"] payload) New in
  handler s ["ListFoos"] (inl query_ListFoos) [] =
    (Return tt,
     [WriteHeader 200;
      Write (JObject
               [("data",
                 JObject [("ListFoos",
                           JObject [("foo", JNumber (NumInt 789))])])])])
  ∧ handler s ["ListFoos"]
      (inl {| Query := Query query_ListFoos;
              Variables := Some {["foo" := AString "x"]} |}) [] =
    (Return tt,
     [WriteHeader 404;
      Write (error_body "goraphql_mock_server: mocked request not found" JNull)]).
Proof. by vm_compute. Qed.

(* ===================================================================== *)
(** * Further properties: the gate                                       *)
(* ===================================================================== *)

Lemma append_cons (c : ascii) (s t : string) :
  String c s +:+ t = String c (s +:+ t).
Proof. reflexivity. Qed.

Lemma append_assoc (s t u : string) : (s +:+ t) +:+ u = s +:+ (t +:+ u).
Proof. induction s as [|c s IH]; [done|]. by rewrite !append_cons, IH. Qed.

Lemma append_nil_r (s : string) : s +:+ "" = s.
Proof. induction s as [|c s IH]; [done|]. by rewrite append_cons, IH. Qed.

Lemma list_ascii_of_string_app (s t : string) :
  list_ascii_of_string (s +:+ t) = list_ascii_of_string s ++ list_ascii_of_string t.
Proof.
  induction s as [|c s IH]; [done|].
  rewrite append_cons. cbn [list_ascii_of_string app]. by rewrite IH.
Qed.

Lemma string_of_list_ascii_app (l k : list ascii) :
  string_of_list_ascii (l ++ k) = string_of_list_ascii l +:+ string_of_list_ascii k.
Proof.
  induction l as [|c l IH]; [done|].
  cbn [string_of_list_ascii app]. by rewrite append_cons, IH.
Qed.

Lemma TrimLeftSpace_space (ws s : string) :
  all_asciiSpace ws = true → TrimLeftSpace (ws +:+ s) = TrimLeftSpace s.
Proof.
  induction ws as [|c ws IH]; [done|]. cbn [all_asciiSpace].
  intros [Hc Hws]%andb_true_iff.
  rewrite append_cons. cbn [TrimLeftSpace]. rewrite Hc. by apply IH.
Qed.

(** Trimming on the right never goes past an ASCII byte that is not white
    space. *)
Lemma TrimLeftSpaceRev_stops (c : ascii) (tail : list ascii) :
  in_range 0 127 c = true → asciiSpace c = false →
  ∀ r, ∃ r', TrimLeftSpaceRev (r ++ c :: tail) = r' ++ c :: tail.
Proof.
  intros Hc Hsp.
  assert (∀ b, isSpace2 c b = false) as H2.
  { intros b. unfold isSpace2, in_range in *. 
    apply andb_true_iff in Hc as [_ Hc%N.leb_le].
    destruct (byte_val c =? 194)%N eqn:E; [|done]. apply N.eqb_eq in E. lia. }
  assert (∀ a, isSpace2 a c = false) as H2'.
  { intros a. unfold isSpace2, in_range in *.
    apply andb_true_iff in Hc as [_ Hc%N.leb_le].
    destruct (byte_val a =? 194)%N; [|done]. cbn.
    apply orb_false_iff. split; apply N.eqb_neq; lia. }
  assert (∀ a b, isSpace3 a b c = false) as H3.
  { intros a b. unfold isSpace3, in_range in *.
    apply andb_true_iff in Hc as [_ Hc%N.leb_le].
    assert ((byte_val c =? 128) = false)%N as -> by (apply N.eqb_neq; lia).
    assert ((128 <=? byte_val c) = false)%N as -> by (apply N.leb_gt; lia).
    assert ((byte_val c =? 168) = false)%N as -> by (apply N.eqb_neq; lia).
    assert ((byte_val c =? 169) = false)%N as -> by (apply N.eqb_neq; lia).
    assert ((byte_val c =? 175) = false)%N as -> by (apply N.eqb_neq; lia).
    assert ((byte_val c =? 159) = false)%N as -> by (apply N.eqb_neq; lia).
    by rewrite !andb_false_r. }
  assert (∀ a b, isSpace3 a c b = false) as H3'.
  { intros a b. unfold isSpace3, in_range in *.
    apply andb_true_iff in Hc as [_ Hc%N.leb_le].
    assert ((byte_val c =? 154) = false)%N as -> by (apply N.eqb_neq; lia).
    assert ((byte_val c =? 128) = false)%N as -> by (apply N.eqb_neq; lia).
    assert ((byte_val c =? 129) = false)%N as -> by (apply N.eqb_neq; lia).
    by rewrite !andb_false_r. }
  assert (∀ a b, isSpace3 c a b = false) as H3''.
  { intros a b. unfold isSpace3, in_range in *.
    apply andb_true_iff in Hc as [_ Hc%N.leb_le].
    assert ((byte_val c =? 225) = false)%N as -> by (apply N.eqb_neq; lia).
    assert ((byte_val c =? 226) = false)%N as -> by (apply N.eqb_neq; lia).
    assert ((byte_val c =? 227) = false)%N as -> by (apply N.eqb_neq; lia).
    done. }
  intros r. remember (length r) as n eqn:Hn. revert r Hn.
  induction n as [n IH] using lt_wf_ind. intros r ->.
  destruct r as [|b1 r1].
  - exists []. cbn [app TrimLeftSpaceRev]. rewrite Hsp.
    destruct tail as [|b2 r2]; [done|]. rewrite (H2' b2).
    destruct r2 as [|b3 r3]; [done|]. by rewrite H3.
  - cbn [app TrimLeftSpaceRev].
    destruct (asciiSpace b1).
    { apply (IH (length r1)); [cbn; lia|done]. }
    destruct r1 as [|b2 r2].
    + cbn [app]. rewrite H2. destruct tail as [|b3 r3]; [by exists [b1]|].
      rewrite H3'. by exists [b1].
    + cbn [app]. destruct (isSpace2 b2 b1).
      { apply (IH (length r2)); [cbn; lia|done]. }
      destruct r2 as [|b3 r3].
      * cbn [app]. rewrite H3''. by exists [b1; b2].
      * cbn [app]. destruct (isSpace3 b3 b2 b1).
        { apply (IH (length r3)); [cbn; lia|done]. }
        by exists (b1 :: b2 :: b3 :: r3).
Qed.

Lemma TrimRightSpace_keeps_query (rest : string) :
  ∃ rest', TrimRightSpace ("query" +:+ rest) = "query" +:+ rest'.
Proof.
  unfold TrimRightSpace. rewrite list_ascii_of_string_app, rev_app_distr.
  change (rev (list_ascii_of_string "query"))
    with ("y"%char :: ["r"; "e"; "u"; "q"]%char).
  destruct (TrimLeftSpaceRev_stops "y" ["r"; "e"; "u"; "q"]%char
              eq_refl eq_refl (rev (list_ascii_of_string rest))) as [r' ->].
  rewrite rev_app_distr.
  change (rev ("y"%char :: ["r"; "e"; "u"; "q"]%char))
    with (list_ascii_of_string "query").
  exists (string_of_list_ascii (rev r')).
  by rewrite string_of_list_ascii_app, string_of_list_ascii_of_string.
Qed.

(** X1.  The gate trims before it looks for [query]: ASCII white space in
    front of a query does not change whether it passes, and a text that
    reads [query] after such white space passes whatever follows, white
    space at its end included. *)
Theorem gate_ignores_leading_space (ws q rest : string) (vars : gomap) :
  all_asciiSpace ws = true →
  eligible {| Query := ws +:+ q; Variables := vars |}
  = eligible {| Query := q; Variables := vars |}
  ∧ eligible {| Query := ws +:+ "query" +:+ rest; Variables := vars |} = true.
Proof.
  intros Hws. unfold eligible, TrimSpace. cbn [Query].
  rewrite !(TrimLeftSpace_space ws) by done. split; [done|].
  change (TrimLeftSpace ("query" +:+ rest)) with ("query" +:+ rest).
  destruct (TrimRightSpace_keeps_query rest) as [rest' ->].
  apply HasPrefix_app.
Qed.

Lemma gate_ignores_leading_space_witness :
  eligible {| Query := String (chr 10) (String (chr 9) " ") +:+ "query { a } ";
              Variables := None |}
  = eligible {| Query := "query { a } "; Variables := None |}.
Proof.
  apply (gate_ignores_leading_space (String (chr 10) (String (chr 9) " "))
           "query { a } " "" None).
  vm_compute. reflexivity.
Defined.

(* ===================================================================== *)
(** * Further properties: the dispatcher                                 *)
(* ===================================================================== *)

(** The three ways [answer] ends. *)
Lemma answer_outcomes (mock : MockedRequest.t) (w : ResponseWriter) :
  match MockedRequest.Response mock with
  | Panic msg => answer mock w = (Panic msg, w)
  | Return data =>
      match Marshal data with
      | inl body =>
          answer mock w =
          (Return tt, w ++ [WriteHeader StatusOK; Write (JObject [("data", body)])])
      | inr err =>
          answer mock w =
          (Panic ("goraphql_mock_server: failed to encode response: " +:+ err),
           w ++ [WriteHeader StatusOK])
      end
  end.
Proof.
  unfold answer. destruct (MockedRequest.Response mock) as [data|msg]; [|done].
  unfold respondResponse, respond, Marshal_Response. cbn [Data Errors default].
  destruct (Marshal data) as [body|err]; [|done].
  cbn. by rewrite <- app_assoc.
Qed.

Lemma answer_is_not_not_found (mock : MockedRequest.t) (w : ResponseWriter)
    (body : json) :
  answer mock w ≠ (Return tt, w ++ [WriteHeader StatusNotFound; Write body]).
Proof.
  pose proof (answer_outcomes mock w) as H.
  destruct (MockedRequest.Response mock) as [data|msg].
  - destruct (Marshal data) as [b|err]; rewrite H; [|done].
    intros [= Heq%app_inv_head]. discriminate Heq.
  - by rewrite H.
Qed.

Lemma range_order_entries (s : server) (ids : list string) (id : string)
    (mock : MockedRequest.t) :
  range_order s ids → mock ∈ entries s id → id ∈ ids.
Proof.
  intros [_ Hids] Hin. apply Hids. unfold entries in Hin.
  destruct (queries s !! id); [by eexists|]. by apply elem_of_nil in Hin.
Qed.

(** X2.  For a decoded request the handler answers not-found exactly when
    the request does not pass the gate or no entry of an identifier
    contained in its query accepts its variables; this does not depend on
    the order of the range over the registry. *)
Theorem not_found_exactly_without_match (s : server) (ids : list string)
    (req : Request) (w : ResponseWriter) :
  range_order s ids →
  handler s ids (inl req) w =
    (Return tt,
     w ++ [WriteHeader StatusNotFound;
           Write (error_body "goraphql_mock_server: mocked request not found" JNull)])
  ↔ eligible req = false ∨ no_match s req.
Proof.
  intros Hids. split; [|intros [?|?]; apply handler_not_found; [by left|]].
  - rewrite handler_lookup. destruct (eligible req); [|by left].
    destruct (lookup s ids req) as [mock|] eqn:Hl.
    + intros H. by apply answer_is_not_not_found in H.
    + intros _. right. apply lookup_None in Hl. intros id mock Hc Hin.
      apply (Hl id mock); [|done..]. by eapply range_order_entries.
  - right. by apply no_match_no_hit.
Qed.

Lemma not_found_exactly_without_match_witness :
  handler registry_AB ["ListFoos"] (inl mutation_ListFoos) [] =
    (Return tt,
     [] ++ [WriteHeader StatusNotFound;
            Write (error_body "goraphql_mock_server: mocked request not found" JNull)])
  ↔ eligible mutation_ListFoos = false ∨ no_match registry_AB mutation_ListFoos.
Proof.
  apply (not_found_exactly_without_match registry_AB ["ListFoos"]
           mutation_ListFoos []).
  apply range_order_RegisterQuery_old; [|apply elem_of_cons; by left].
  apply range_order_RegisterQuery_new; [apply range_order_New|].
  intros H. apply elem_of_nil in H. destruct H.
Defined.

Lemma handler_first_hit (s : server) (pre post : list string) (id : string)
    (mock : MockedRequest.t) (req : Request) (w : ResponseWriter) :
  eligible req = true → no_hit s pre req →
  Contains (Query req) id = true → first_accepting s id req = Some mock →
  handler s (pre ++ id :: post) (inl req) w = answer mock w.
Proof.
  intros Hel Hpre Hc Hf. rewrite handler_lookup, Hel, lookup_app by done.
  cbn [lookup]. rewrite Hc. unfold first_accepting in Hf. by rewrite Hf.
Qed.

(** X3.  When two identifiers contained in the query both have an
    accepting entry, the request is answered by the one the range over the
    registry yields first: exchanging the two in the order exchanges the
    answer.  The order of registration across identifiers plays no part. *)
Theorem answer_follows_range_order (s : server) (pre mid post : list string)
    (id1 id2 : string) (A1 A2 : MockedRequest.t) (req : Request)
    (w : ResponseWriter) :
  eligible req = true →
  Contains (Query req) id1 = true →
  Contains (Query req) id2 = true →
  first_accepting s id1 req = Some A1 →
  first_accepting s id2 req = Some A2 →
  no_hit s pre req →
  no_hit s mid req →
  handler s (pre ++ id1 :: mid ++ id2 :: post) (inl req) w = answer A1 w
  ∧ handler s (pre ++ id2 :: mid ++ id1 :: post) (inl req) w = answer A2 w.
Proof.
  intros Hel Hc1 Hc2 H1 H2 Hpre Hmid. split; by apply handler_first_hit.
Qed.

Lemma answer_follows_range_order_witness :
  let s := RegisterQuery "query" entryC registry_AB in
  handler s ([] ++ "ListFoos" :: [] ++ "query" :: []) (inl query_ListFoos) []
  = answer entryA []
  ∧ handler s ([] ++ "query" :: [] ++ "ListFoos" :: []) (inl query_ListFoos) []
    = answer entryC [].
Proof.
  apply (answer_follows_range_order (RegisterQuery "query" entryC registry_AB)
           [] [] [] "ListFoos" "query" entryA entryC query_ListFoos []).
  - vm_compute. reflexivity.
  - vm_compute. reflexivity.
  - vm_compute. reflexivity.
  - vm_compute. reflexivity.
  - vm_compute. reflexivity.
  - intros id mock H. apply elem_of_nil in H. destruct H.
  - intros id mock H. apply elem_of_nil in H. destruct H.
Defined.

Lemma lookup_unique (s : server) (ids : list string) (id0 : string)
    (req : Request) :
  (∀ id mock, Contains (Query req) id = true → mock ∈ entries s id →
              accepts mock req = true → id = id0) →
  NoDup ids →
  lookup s ids req =
  if decide (id0 ∈ ids) then
    if Contains (Query req) id0 then first_accepting s id0 req else None
  else None.
Proof.
  intros Huniq. induction ids as [|id ids IH]; intros Hnd.
  - by rewrite decide_False by (by intros H%elem_of_nil).
  - apply NoDup_cons in Hnd as [Hnotin Hnd]. specialize (IH Hnd).
    cbn [lookup]. destruct (decide (id = id0)) as [->|Hne].
    + rewrite decide_True by (apply elem_of_cons; by left).
      rewrite decide_False in IH by done. rewrite IH. unfold first_accepting.
      destruct (Contains (Query req) id0); [|done].
      by destruct (find _ (entries s id0)).
    + assert (lookup s (id :: ids) req = lookup s ids req) as Hskip.
      { cbn [lookup]. destruct (Contains (Query req) id) eqn:Hc; [|done].
        destruct (find _ (entries s id)) as [m|] eqn:Hf; [|done].
        apply find_some in Hf as [Hin Hacc]. apply list_elem_of_In in Hin.
        by destruct (Hne (Huniq id m Hc Hin Hacc)). }
      cbn [lookup] in Hskip. rewrite Hskip, IH.
      destruct (decide (id0 ∈ ids)) as [Hin|Hnin].
      * rewrite decide_True; [done|]. apply elem_of_cons. by right.
      * rewrite decide_False; [done|]. intros [?|?]%elem_of_cons; congruence.
Qed.

(** X4.  When all the accepting entries of identifiers contained in the
    query are registered under one identifier, the handler gives the same
    result for every order of the range over the registry. *)
Theorem dispatch_independent_of_order (s : server) (ids ids' : list string)
    (id0 : string) (decoded : Request + error) (w : ResponseWriter) :
  range_order s ids →
  range_order s ids' →
  (∀ req id mock, decoded = inl req →
                  Contains (Query req) id = true → mock ∈ entries s id →
                  accepts mock req = true → id = id0) →
  handler s ids decoded w = handler s ids' decoded w.
Proof.
  intros [Hnd Hids] [Hnd' Hids'] Huniq. destruct decoded as [req|err].
  - rewrite !handler_lookup.
    rewrite (lookup_unique s ids id0 req), (lookup_unique s ids' id0 req);
      [|by eauto..].
    destruct (decide (id0 ∈ ids)) as [Hin|Hnin].
    + rewrite decide_True; [done|]. by apply Hids', Hids.
    + rewrite decide_False; [done|]. intros H. by apply Hnin, Hids, Hids'.
  - by rewrite !handler_decode_failure.
Qed.

Lemma dispatch_independent_of_order_witness :
  let s := RegisterQuery "Other" entryC registry_AB in
  handler s ["Other"; "ListFoos"] (inl query_ListFoos) []
  = handler s ["ListFoos"; "Other"] (inl query_ListFoos) [].
Proof.
  assert (range_order (RegisterQuery "Other" entryC registry_AB)
            ["Other"; "ListFoos"]) as Hord.
  { apply range_order_RegisterQuery_new.
    - apply range_order_RegisterQuery_old; [|apply elem_of_cons; by left].
      apply range_order_RegisterQuery_new; [apply range_order_New|].
      intros H. apply elem_of_nil in H. destruct H.
    - intros H. apply elem_of_cons in H. destruct H as [H|H]; [discriminate H|].
      apply elem_of_nil in H. destruct H. }
  apply (dispatch_independent_of_order
           (RegisterQuery "Other" entryC registry_AB)
           ["Other"; "ListFoos"] ["ListFoos"; "Other"] "ListFoos"
           (inl query_ListFoos) []).
  - exact Hord.
  - apply (range_order_perm _ _ _ Hord). apply perm_swap.
  - intros req id mock Hreq Hc Hin Hacc. injection Hreq as <-.
    unfold registry_AB in Hin. rewrite !RegisterQuery_entries in Hin.
    destruct (decide ("Other" = id)) as [<-|Hne]; [|].
    + vm_compute in Hc. discriminate Hc.
    + destruct (decide ("ListFoos" = id)) as [<-|Hne']; [reflexivity|].
      vm_compute in Hin. apply elem_of_nil in Hin. destruct Hin.
Defined.


(** X6.  The two ways a matched entry makes the handler panic.  When the
    method [Response] of the entry panics, the panic passes through the
    handler and nothing has been written.  When the payload cannot be
    encoded, the status 200 has already been written, no document
    follows, and the panic message names the encoding error. *)
Theorem matched_entry_panics (s : server) (pre post : list string) (id : string)
    (mock : MockedRequest.t) (req : Request) (w : ResponseWriter) :
  eligible req = true →
  no_hit s pre req →
  Contains (Query req) id = true →
  first_accepting s id req = Some mock →
  (∀ msg, MockedRequest.Response mock = Panic msg →
          handler s (pre ++ id :: post) (inl req) w = (Panic msg, w))
  ∧ (∀ data err,
       MockedRequest.Response mock = Return data → Marshal data = inr err →
       handler s (pre ++ id :: post) (inl req) w =
       (Panic ("goraphql_mock_server: failed to encode response: " +:+ err),
        w ++ [WriteHeader StatusOK])).
Proof.
  intros Hel Hpre Hc Hf. rewrite (handler_first_hit s pre post id mock) by done.
  pose proof (answer_outcomes mock w) as H. split.
  - intros msg Hmsg. by rewrite Hmsg in H.
  - intros data err Hdata Herr. by rewrite Hdata, Herr in H.
Qed.

Lemma matched_entry_panics_witness :
  let nan := AFloat 0x7FF8000000000000%Z in
  let s := RegisterQuery "ListFoos" (key_entry ["foo"; "num"] nan) New in
  handler s ([] ++ "ListFoos" :: []) (inl query_ListFoos) [] =
  (Panic ("goraphql_mock_server: failed to encode response: "
          +:+ "json: unsupported value: NaN"),
   [] ++ [WriteHeader StatusOK]).
Proof.
  cbn zeta.
  destruct (matched_entry_panics
              (RegisterQuery "ListFoos"
                 (key_entry ["foo"; "num"] (AFloat 0x7FF8000000000000%Z)) New)
              [] [] "ListFoos"
              (key_entry ["foo"; "num"] (AFloat 0x7FF8000000000000%Z))
              query_ListFoos []) as [_ Hpanic].
  - vm_compute. reflexivity.
  - intros id mock H. apply elem_of_nil in H. destruct H.
  - vm_compute. reflexivity.
  - vm_compute. reflexivity.
  - apply (Hpanic (AFloat 0x7FF8000000000000%Z) "json: unsupported value: NaN").
    + reflexivity.
    + reflexivity.
Defined.

Section StringResponse_properties.

Variable Unmarshal : string → gomap + error.

(** X7.  A [SimpleMockedRequest] reads its JSON text when it answers, not
    when it is registered.  Registered alone under an identifier that the
    query of a request passing the gate contains: a request with other
    variable keys gets not-found, whatever the text; a request with the
    listed keys gets the decoded map under [data] when the text decodes,
    and makes the handler panic, before anything is written, when it does
    not. *)
Theorem string_response_is_read_on_match (text id : string) (kv : list string)
    (req : Request) (w : ResponseWriter) :
  let s := RegisterQuery id (SimpleMockedRequest Unmarshal text kv) New in
  eligible req = true →
  Contains (Query req) id = true →
  (KeyOnlyVariables_CompareVariables kv (Variables req) = false →
   handler s [id] (inl req) w =
   (Return tt,
    w ++ [WriteHeader StatusNotFound;
          Write (error_body "goraphql_mock_server: mocked request not found" JNull)]))
  ∧ (KeyOnlyVariables_CompareVariables kv (Variables req) = true →
     (∀ err, Unmarshal text = inr err →
             handler s [id] (inl req) w =
             (Panic ("goraphql_mock_server: failed to encode StringResponse: "
                     +:+ Error err), w))
     ∧ (∀ data body, Unmarshal text = inl data → Marshal (AMap data) = inl body →
                     handler s [id] (inl req) w =
                     (Return tt, w ++ [WriteHeader StatusOK;
                                       Write (JObject [("data", body)])]))).
Proof.
  cbn zeta. intros Hel Hc.
  set (mock := SimpleMockedRequest Unmarshal text kv).
  assert (entries (RegisterQuery id mock New) id = [mock]) as Hentries.
  { rewrite RegisterQuery_entries, decide_True by done.
    unfold entries, New. cbn [queries]. by rewrite lookup_empty. }
  split.
  - intros Hrej. apply handler_not_found. right.
    intros id' m Hid' Hc' Hin. apply elem_of_cons in Hid' as [->|H%elem_of_nil]; [|done].
    rewrite Hentries in Hin.
    apply elem_of_cons in Hin as [->|H%elem_of_nil]; [done|done].
  - intros Hacc.
    assert (handler (RegisterQuery id mock New) ([] ++ id :: []) (inl req) w
            = answer mock w) as Heq.
    { apply handler_first_hit; [done| |done|].
      - by intros id' m H%elem_of_nil.
      - unfold first_accepting. rewrite Hentries. cbn [find].
        unfold accepts at 1. subst mock. cbn [MockedRequest.CompareVariables SimpleMockedRequest].
        by rewrite Hacc. }
    cbn [app] in Heq. rewrite Heq.
    pose proof (answer_outcomes mock w) as H.
    subst mock. cbn [MockedRequest.Response SimpleMockedRequest] in H.
    unfold StringResponse_Response in H. split.
    + intros err Herr. by rewrite Herr in H.
    + intros data body Hdata Hbody. by rewrite Hdata, Hbody in H.
Qed.

End StringResponse_properties.

Lemma string_response_is_read_on_match_witness :
  let Unmarshal := λ _ : string,
    inr (errorString "unexpected end of JSON input") : gomap + error in
  let s := RegisterQuery "ListFoos"
             (SimpleMockedRequest Unmarshal "{" ["foo"; "num"]) New in
  handler s ["ListFoos"] (inl query_ListFoos) [] =
  (Panic ("goraphql_mock_server: failed to encode StringResponse: "
          +:+ "unexpected end of JSON input"), []).
Proof.
  cbn zeta.
  destruct (string_response_is_read_on_match
              (λ _, inr (errorString "unexpected end of JSON input"))
              "{" "ListFoos" ["foo"; "num"] query_ListFoos [])
    as [_ Hmatch].
  - vm_compute. reflexivity.
  - vm_compute. reflexivity.
  - destruct Hmatch as [Hpanic _].
    + vm_compute. reflexivity.
    + apply (Hpanic (errorString "unexpected end of JSON input")). reflexivity.
Defined.

(* ===================================================================== *)
(** * Further properties: the registry                                   *)
(* ===================================================================== *)

Lemma RegisterQuery_is_Some (s : server) (id id' : string) (mock : MockedRequest.t) :
  is_Some (queries (RegisterQuery id' mock s) !! id)
  ↔ id' = id ∨ is_Some (queries s !! id).
Proof.
  unfold RegisterQuery; cbn [queries]. destruct (decide (id' = id)) as [->|Hne].
  - rewrite lookup_insert_eq. split; [by left|by eexists].
  - rewrite lookup_insert_ne by done. split; [by right|by intros [?|?]].
Qed.

(** X8.  The registry is the log of the registrations: after any sequence
    of calls of [RegisterQuery], the entries under an identifier are those
    it had before followed by the entries registered under it, in the
    order of the calls; nothing is dropped, replaced or reordered, and an
    identifier is registered exactly when it was before or a call named
    it. *)
Theorem registry_is_registration_log (regs : list (string * MockedRequest.t))
    (s : server) (id : string) :
  entries (register_all regs s) id
  = entries s id ++ (filter (λ r, r.1 = id) regs).*2
  ∧ (is_Some (queries (register_all regs s) !! id)
     ↔ is_Some (queries s !! id) ∨ id ∈ regs.*1).
Proof.
  revert s. induction regs as [|[id' mock] regs IH]; intros s.
  - cbn. rewrite app_nil_r. split; [done|]. split; [by left|].
    by intros [?|?%elem_of_nil].
  - change (register_all ((id', mock) :: regs) s)
      with (register_all regs (RegisterQuery id' mock s)).
    destruct (IH (RegisterQuery id' mock s)) as [-> ->]. split.
    + rewrite RegisterQuery_entries, filter_cons. cbn [fst snd].
      destruct (decide (id' = id)) as [->|Hne]; [|done].
      by rewrite <- app_assoc.
    + rewrite RegisterQuery_is_Some. cbn [fmap list_fmap fst].
      rewrite elem_of_cons. split.
      * intros [[->|?]|?]; [right; by left|by left|right; by right].
      * intros [?|[->|?]]; [left; by right|left; by left|by right].
Qed.

(** X9.  Registrations under different identifiers commute: the registry
    does not record the order of calls across identifiers. *)
Theorem RegisterQuery_commutes (s : server) (id1 id2 : string)
    (A B : MockedRequest.t) :
  id1 ≠ id2 →
  RegisterQuery id1 A (RegisterQuery id2 B s)
  = RegisterQuery id2 B (RegisterQuery id1 A s).
Proof.
  intros Hne. unfold RegisterQuery; cbn [queries].
  rewrite !lookup_insert_ne by done. f_equal. by apply insert_insert_ne.
Qed.

Lemma RegisterQuery_commutes_witness :
  RegisterQuery "ListFoos" entryA (RegisterQuery "ListBars" entryB New)
  = RegisterQuery "ListBars" entryB (RegisterQuery "ListFoos" entryA New).
Proof.
  apply (RegisterQuery_commutes New "ListFoos" "ListBars" entryA entryB).
  intros H. discriminate H.
Defined.

(* ===================================================================== *)
(** * Further properties: the matchers                                   *)
(* ===================================================================== *)

Lemma KeyOnlyVariables_iff (K : list string) (M : gomap) :
  KeyOnlyVariables_CompareVariables K M = true
  ↔ dom (map_entries M) = list_to_set K.
Proof.
  unfold KeyOnlyVariables_CompareVariables, map_len.
  fold (map_entries M). apply KeyOnlyVariables_compare_iff.
  intros k. apply elem_of_range_keys.
Qed.

(** X10.  The list of a [KeyOnlyVariables] is read as a set: two lists
    with the same elements, in any order and with any repetitions, accept
    the same variable maps. *)
Theorem key_only_list_is_a_set (K K' : list string) (M : gomap) :
  (∀ k, k ∈ K ↔ k ∈ K') →
  KeyOnlyVariables_CompareVariables K M = KeyOnlyVariables_CompareVariables K' M.
Proof.
  intros H. apply bool_eq_iff. rewrite !KeyOnlyVariables_iff.
  assert (list_to_set K =@{gset string} list_to_set K') as ->; [|done].
  apply set_eq. intros k. by rewrite !elem_of_list_to_set.
Qed.

Lemma key_only_list_is_a_set_witness :
  KeyOnlyVariables_CompareVariables ["num"; "foo"; "num"] foo_num
  = KeyOnlyVariables_CompareVariables ["foo"; "num"] foo_num.
Proof.
  apply (key_only_list_is_a_set ["num"; "foo"; "num"] ["foo"; "num"] foo_num).
  intros k. rewrite !elem_of_cons, elem_of_nil. tauto.
Defined.

(** X11.  [NoVariable] is [KeyOnlyVariables] with no key: both accept
    exactly the maps without entries, the nil map of a request without
    variables and the empty map alike. *)
Theorem no_variable_is_the_empty_key_set (got : gomap) :
  NoVariable_CompareVariables got = KeyOnlyVariables_CompareVariables [] got
  ∧ (NoVariable_CompareVariables got = true ↔ got = None ∨ got = Some ∅).
Proof.
  assert (NoVariable_CompareVariables got = true ↔ map_entries got = ∅) as Hno.
  { unfold NoVariable_CompareVariables, map_len, map_entries.
    rewrite Nat.eqb_eq. apply map_size_empty_iff. }
  split.
  - apply bool_eq_iff. rewrite Hno, KeyOnlyVariables_iff.
    cbn [list_to_set foldr]. by rewrite dom_empty_iff_L.
  - rewrite Hno. destruct got as [m|]; cbn.
    + split; [intros ->; by right|]. by intros [?|[= ->]].
    + split; [by left|done].
Qed.

Section ExactVariables_properties.

Variable FormatFloat : float64 → string.

(** X12.  An exact match is a key match: whenever [ExactVariables] with a
    reference map accepts the variables, [KeyOnlyVariables] with the keys
    of the reference accepts them too. *)
Theorem exact_match_implies_key_match (R : gmap string any) (M : gomap) :
  ExactVariables_CompareVariables FormatFloat (AMap (Some R)) M = true →
  KeyOnlyVariables_CompareVariables (keys_of R) M = true.
Proof.
  intros H%DeepEqual_DeeplyEqual. apply KeyOnlyVariables_iff.
  inversion H as [| | | | | | | |? m2 Hrel|]; subst. cbn.
  apply set_eq. intros k. rewrite elem_of_list_to_set.
  unfold keys_of. rewrite elem_of_range_keys, !elem_of_dom.
  specialize (Hrel k). inversion Hrel; split; intros [? ?]; (done || by eexists).
Qed.

(** X13.  [reflect.DeepEqual] tells a nil map from an empty one: a
    reference that is a map, even the empty one, never matches a request
    without variables (the nil map), which only a nil reference matches;
    the empty reference matches the empty map. *)
Theorem exact_match_tells_nil_from_empty (R : gmap string any) (M : gomap) :
  ExactVariables_CompareVariables FormatFloat (AMap (Some R)) None = false
  ∧ (ExactVariables_CompareVariables FormatFloat (AMap None) M = true ↔ M = None)
  ∧ ExactVariables_CompareVariables FormatFloat (AMap (Some ∅)) (Some ∅) = true
  ∧ NoVariable_CompareVariables None = NoVariable_CompareVariables (Some ∅).
Proof.
  split; [done|]. split; [|done].
  destruct M; cbn; split; done.
Qed.


End ExactVariables_properties.

(* ===================================================================== *)
(** * Further properties: the decoder of the tests                       *)
(* ===================================================================== *)

Lemma digit_val_pretty_N_char (d : N) :
  (d < 10)%N → digit_val (pretty_N_char d) = Some (Z.of_N d).
Proof.
  intros Hd.
  assert (d = 0 ∨ d = 1 ∨ d = 2 ∨ d = 3 ∨ d = 4 ∨ d = 5 ∨ d = 6 ∨ d = 7
          ∨ d = 8 ∨ d = 9)%N as H by lia.
  repeat (destruct H as [->|H]; [reflexivity|]). by subst.
Qed.

(** Reading the digits strconv writes for a natural number gives the
    number back. *)
Lemma parse_digits_pretty_N_go (x : N) :
  ∃ k : nat, ∀ s acc,
    parse_digits (pretty_N_go x s) acc
    = parse_digits s (acc * 10 ^ Z.of_nat k + Z.of_N x)%Z.
Proof.
  induction (N.lt_wf_0 x) as [x _ IH].
  destruct (decide (x = 0)%N) as [->|Hx].
  - exists 0%nat. intros s acc. rewrite pretty_N_go_0. f_equal. cbn. lia.
  - destruct (IH (x `div` 10)%N) as [k Hk]; [apply N.div_lt; lia|].
    exists (S k). intros s acc. rewrite pretty_N_go_step by lia.
    rewrite Hk. cbn [parse_digits].
    rewrite digit_val_pretty_N_char by (apply N.mod_lt; lia).
    f_equal. rewrite Nat2Z.inj_succ, Z.pow_succ_r by lia.
    rewrite N2Z.inj_div, N2Z.inj_mod. change (Z.of_N 10) with 10%Z.
    pose proof (Z.div_mod (Z.of_N x) 10 ltac:(lia)). lia.
Qed.

Lemma pretty_N_go_head (x : N) :
  (0 < x)%N →
  ∃ d t, (d < 10)%N ∧ ∀ s, pretty_N_go x s = String (pretty_N_char d) (t +:+ s).
Proof.
  induction (N.lt_wf_0 x) as [x _ IH]. intros Hx.
  destruct (decide (x < 10)%N) as [Hlt|Hge].
  - exists x, "". split; [done|]. intros s. rewrite pretty_N_go_step by done.
    rewrite N.div_small, N.mod_small by done. by rewrite pretty_N_go_0.
  - destruct (IH (x `div` 10)%N) as (d & t & Hd & Ht).
    { apply N.div_lt; lia. }
    { apply N.div_str_pos. lia. }
    exists d, (t +:+ String (pretty_N_char (x `mod` 10)) ""). split; [done|].
    intros s. rewrite pretty_N_go_step by done. rewrite Ht.
    by rewrite append_assoc.
Qed.

Lemma ParseInt_digit_head (d : N) (r : string) :
  (d < 10)%N →
  ParseInt (String (pretty_N_char d) r) =
  match parse_digits (String (pretty_N_char d) r) 0 with
  | None => None
  | Some un => if (un <? 2 ^ 63)%Z then Some un else None
  end.
Proof.
  intros Hd.
  assert (d = 0 ∨ d = 1 ∨ d = 2 ∨ d = 3 ∨ d = 4 ∨ d = 5 ∨ d = 6 ∨ d = 7
          ∨ d = 8 ∨ d = 9)%N as H by lia.
  repeat (destruct H as [->|H]; [reflexivity|]). by subst.
Qed.

(** [ParseInt] reads back what is written for an [int]. *)
Lemma ParseInt_pretty (n : Z) : is_int64 n → ParseInt (pretty n) = Some n.
Proof.
  intros [Hlo Hhi]. destruct n as [|p|p].
  - reflexivity.
  - unfold pretty, pretty_Z, pretty, pretty_positive, pretty, pretty_N.
    rewrite decide_False by done.
    destruct (pretty_N_go_head (N.pos p)) as (d & t & Hd & Ht); [done|].
    destruct (parse_digits_pretty_N_go (N.pos p)) as [k Hk].
    rewrite (Ht ""), ParseInt_digit_head by done. rewrite <- (Ht "").
    rewrite Hk. cbn [parse_digits]. rewrite Z.mul_0_l, Z.add_0_l.
    change (Z.of_N (N.pos p)) with (Z.pos p).
    by rewrite (proj2 (Z.ltb_lt _ _) Hhi).
  - unfold pretty, pretty_Z, pretty, pretty_positive, pretty, pretty_N.
    rewrite decide_False by done.
    destruct (pretty_N_go_head (N.pos p)) as (d & t & Hd & Ht); [done|].
    destruct (parse_digits_pretty_N_go (N.pos p)) as [k Hk].
    change ("-" +:+ pretty_N_go (N.pos p) "")
      with (String "-" (pretty_N_go (N.pos p) "")).
    unfold ParseInt. rewrite (Ht "") at 1. rewrite Hk.
    cbn [parse_digits]. rewrite Z.mul_0_l, Z.add_0_l.
    change (Z.of_N (N.pos p)) with (Z.pos p).
    assert ((Z.pos p <=? 2 ^ 63)%Z = true) as -> by (apply Z.leb_le; lia).
    done.
Qed.

Section Decoder_properties.

Variable FormatFloat : float64 → string.

Lemma Variable_foo_num (f : string) (n : Z) :
  is_int64 n →
  EncodedVariable_Variable FormatFloat
    (Some {["foo" := AString f; "num" := AInt n]})
  = (AEncodedVariable (ToValidUTF8 f) n, true).
Proof.
  intros Hn. unfold EncodedVariable_Variable.
  change (map_len (Some {["foo" := AString f; "num" := AInt n]})) with 2%nat.
  cbn [Nat.eqb Nat.ltb Nat.leb].
  assert (Marshal (AMap (Some {["foo" := AString f; "num" := AInt n]}))
          = inl (JObject [("foo", JString (ToValidUTF8 f));
                          ("num", JNumber (NumInt n))])) as -> by reflexivity.
  cbn [Decode_EncodedVariable foldl]. unfold decode_member at 2.
  change (EqualFold "foo" "foo") with true. cbn iota beta.
  unfold decode_member.
  change (EqualFold "num" "foo") with false.
  change (EqualFold "num" "num") with true. cbn iota beta.
  cbn [literal]. by rewrite ParseInt_pretty.
Qed.

Lemma Variable_single (key : string) (v : any) :
  EncodedVariable_Variable FormatFloat (Some {[key := v]}) =
  match Marshal v with
  | inr _ => (ANil, false)
  | inl j =>
      let '(ret, ok) :=
        decode_member FormatFloat ({| Foo := ""; Num := 0 |}, true)
          (ToValidUTF8 key, j) in
      (AEncodedVariable (Foo ret) (Num ret), ok)
  end.
Proof.
  unfold EncodedVariable_Variable, map_len.
  cbn [default from_option]. unfold Datatypes.id.
  rewrite map_size_singleton. cbn [Nat.eqb Nat.ltb Nat.leb].
  cbn [Marshal]. rewrite map_fold_singleton.
  change (sort_keys [(key, Marshal v)]) with [(key, Marshal v)].
  cbn [sequence_fields]. by destruct (Marshal v).
Qed.

(** X15.  Decoding round trip: the variables [{"foo": f', "num": n'}],
    with a string and an [int], match the reference
    [EncodedVariable{Foo: f, Num: n}] exactly when [n = n'] and [f] is
    [f'] as JSON carries it (that is [f'] itself when it is valid
    UTF-8). *)
Theorem decoder_round_trip (f f' : string) (n n' : Z) :
  is_int64 n' →
  ExactVariables_CompareVariables FormatFloat (AEncodedVariable f n)
    (Some {["foo" := AString f'; "num" := AInt n']}) = true
  ↔ f = ToValidUTF8 f' ∧ n = n'.
Proof.
  intros Hn. unfold ExactVariables_CompareVariables. cbn [as_VariableDecoder].
  rewrite Variable_foo_num by done. cbn [negb DeepEqual].
  by rewrite andb_true_iff, String.eqb_eq, Z.eqb_eq.
Qed.

(** X16.  A member that is missing or [null] leaves its field at the zero
    value.  So variables with the single key [foo] match exactly the
    references whose [Num] is 0, variables with the single key [num]
    those whose [Foo] is empty, and [{"foo": null}] only the zero
    reference: the decoder cannot tell an absent member from one with
    the zero value. *)
Theorem decoder_missing_member_is_zero (f f' : string) (n n' : Z) :
  is_int64 n' →
  (ExactVariables_CompareVariables FormatFloat (AEncodedVariable f n)
     (Some {["foo" := AString f']}) = true
   ↔ f = ToValidUTF8 f' ∧ n = 0%Z)
  ∧ (ExactVariables_CompareVariables FormatFloat (AEncodedVariable f n)
       (Some {["num" := AInt n']}) = true
     ↔ f = "" ∧ n = n')
  ∧ (ExactVariables_CompareVariables FormatFloat (AEncodedVariable f n)
       (Some {["foo" := ANil]}) = true
     ↔ f = "" ∧ n = 0%Z)
  ∧ (ExactVariables_CompareVariables FormatFloat (AEncodedVariable f' 0)
       (Some {["foo" := AString f']})
     = ExactVariables_CompareVariables FormatFloat (AEncodedVariable f' 0)
         (Some {["foo" := AString f'; "num" := AInt 0]})).
Proof.
  intros Hn. unfold ExactVariables_CompareVariables. cbn [as_VariableDecoder].
  rewrite !Variable_single. rewrite Variable_foo_num by (unfold is_int64; lia).
  cbn [Marshal]. unfold decode_member.
  change (EqualFold (ToValidUTF8 "foo") "foo") with true.
  change (EqualFold (ToValidUTF8 "num") "foo") with false.
  change (EqualFold (ToValidUTF8 "num") "num") with true.
  cbn iota beta. cbn [literal]. rewrite ParseInt_pretty by done.
  cbn [Foo Num negb DeepEqual].
  rewrite !andb_true_iff, !String.eqb_eq, !Z.eqb_eq. done.
Qed.

(** X17.  A member of the wrong kind is an error: with the single key
    [foo], the decoder succeeds exactly for a string and for what JSON
    writes as [null] (nil, a nil slice, a nil map); a boolean, a number,
    a list or an object under [foo] is rejected. *)
Theorem decoder_rejects_wrong_kind (v : any) :
  (EncodedVariable_Variable FormatFloat (Some {["foo" := v]})).2 = true
  ↔ (∃ s, v = AString s) ∨ v = ANil ∨ v = ASlice None ∨ v = AMap None.
Proof.
  rewrite Variable_single. unfold decode_member.
  change (EqualFold (ToValidUTF8 "foo") "foo") with true. cbn iota.
  destruct v as [|b|i|x|t|[l|]|[m|]|foo num]; cbn [Marshal];
    repeat case_match; simplify_eq; cbn [snd]; naive_solver.
Qed.

End Decoder_properties.

Lemma decoder_round_trip_witness :
  ExactVariables_CompareVariables (λ _, "0") (AEncodedVariable "str" 3)
    (Some {["foo" := AString "str"; "num" := AInt 3]}) = true
  ↔ "str" = ToValidUTF8 "str" ∧ (3 = 3)%Z.
Proof.
  apply (decoder_round_trip (λ _, "0") "str" "str" 3 3).
  unfold is_int64. lia.
Defined.

Lemma decoder_missing_member_is_zero_witness :
  ExactVariables_CompareVariables (λ _, "0") (AEncodedVariable "str" 0)
    (Some {["foo" := AString "str"]}) = true
  ↔ "str" = ToValidUTF8 "str" ∧ (0 = 0)%Z.
Proof.
  apply (decoder_missing_member_is_zero (λ _, "0") "str" "str" 0 7).
  unfold is_int64. lia.
Defined.

(* ===================================================================== *)
(** * Further properties: what can be encoded                            *)
(* ===================================================================== *)








(* ===================================================================== *)
(** * Further properties: registrations and dispatch                     *)
(* ===================================================================== *)

Lemma find_app_l {A} (f : A → bool) (l k : list A) (a : A) :
  find f l = Some a → find f (l ++ k) = Some a.
Proof.
  induction l as [|b l IH]; [done|]. cbn. by destruct (f b).
Qed.

Lemma find_app_r {A} (f : A → bool) (l k : list A) :
  find f l = None → find f (l ++ k) = find f k.
Proof.
  induction l as [|b l IH]; [done|]. cbn. by destruct (f b).
Qed.

(** X19.  A registration is an append.  It never changes the answer to a
    request whose query does not contain the identifier; under the
    identifier itself the entries registered before keep their precedence,
    the new entry being tried only when none of them accepts; and the
    entries of the other identifiers are untouched. *)
Theorem registration_keeps_precedence (s : server) (id : string)
    (mock : MockedRequest.t) (req : Request) :
  (Contains (Query req) id = false →
   ∀ ids w, handler (RegisterQuery id mock s) ids (inl req) w
            = handler s ids (inl req) w)
  ∧ first_accepting (RegisterQuery id mock s) id req =
    match first_accepting s id req with
    | Some earlier => Some earlier
    | None => if accepts mock req then Some mock else None
    end
  ∧ (∀ id', id' ≠ id →
            first_accepting (RegisterQuery id mock s) id' req
            = first_accepting s id' req).
Proof.
  split; [|split].
  - intros Hc ids w. rewrite !handler_lookup.
    rewrite (lookup_same_except s (RegisterQuery id mock s) id ids req); [done| |done].
    intros id' Hne. unfold RegisterQuery; cbn [queries].
    by rewrite lookup_insert_ne.
  - unfold first_accepting. rewrite RegisterQuery_entries, decide_True by done.
    destruct (find _ (entries s id)) as [m|] eqn:Hf.
    + by apply find_app_l.
    + rewrite find_app_r by done. cbn [find]. by destruct (accepts mock req).
  - intros id' Hne. unfold first_accepting.
    by rewrite RegisterQuery_entries, decide_False.
Qed.

(** X20.  Containment is transitive: a query that contains an identifier
    contains every fragment of it.  So the entries registered under a
    fragment are candidates for every request the longer identifier is
    written for, and an accepting one among them rules out not-found. *)
Theorem identifier_fragment_is_contained (s : server) (ids : list string)
    (id id' : string) (req : Request) (w : ResponseWriter) :
  Contains id id' = true →
  Contains (Query req) id = true →
  Contains (Query req) id' = true
  ∧ (eligible req = true → range_order s ids →
     ∀ mock, mock ∈ entries s id' → accepts mock req = true →
             ∃ mock', accepts mock' req = true
                      ∧ handler s ids (inl req) w = answer mock' w).
Proof.
  intros (p1 & q1 & ->)%Contains_iff (p2 & q2 & Hq)%Contains_iff.
  assert (Contains (Query req) id' = true) as Hc.
  { apply Contains_iff. exists (p2 +:+ p1), (q1 +:+ q2).
    by rewrite Hq, !append_assoc. }
  split; [done|]. intros Hel Hids mock Hin Hacc.
  destruct (lookup s ids req) as [mock'|] eqn:Hl.
  - destruct (lookup_Some _ _ _ _ Hl) as (? & ? & ? & ? & ?).
    exists mock'. by rewrite handler_lookup, Hel, Hl.
  - apply lookup_None in Hl.
    rewrite (Hl id' mock) in Hacc; [done| |done..].
    by eapply range_order_entries.
Qed.

Lemma identifier_fragment_is_contained_witness :
  Contains (Query query_ListFoos) "ListFoos" = true.
Proof.
  apply (identifier_fragment_is_contained registry_AB ["ListFoos"]
           "ListFoos(foo: $foo" "ListFoos" query_ListFoos []).
  - vm_compute. reflexivity.
  - vm_compute. reflexivity.
Defined.

Lemma exact_match_implies_key_match_witness :
  KeyOnlyVariables_CompareVariables
    (keys_of {["foo" := AInt 1; "test" := AString "str"]})
    (Some {["foo" := AInt 1; "test" := AString "str"]}) = true.
Proof.
  apply (exact_match_implies_key_match (λ _, "0")
           {["foo" := AInt 1; "test" := AString "str"]}
           (Some {["foo" := AInt 1; "test" := AString "str"]})).
  vm_compute. reflexivity.
Defined.

